(** * A shallow embedding of the [check] validation combinators

    The repository holds one design rendered twice: [src/check.ts] and
    [src/check.js].  Both files are embedded below, each in its own
    module ([TS] and [JS]), over a common model of the part of the
    JavaScript object world that the two files touch: primitive values,
    heap-allocated objects with identity, prototype chains, arrays,
    function objects, strict equality, property reads and writes, the
    [in] and [typeof] operators, optional chaining and exceptions.

    Scope of the object model: objects carry data properties only (no
    accessors, no proxies, all properties writable); numbers are the
    integers together with NaN; strings are sequences of one-byte
    code units.  An object enters the heap when the source makes it
    reachable from a value it returns or throws, or inspects it with
    [typeof]; arrays that stay local to one call ([errs], a rest array
    that is only indexed) are lists until then.  A rest array that a
    failure record exposes is assumed not to be altered by the caller. *)

From Stdlib Require Import ZArith String List Bool Lia DecimalString.
From stdpp Require Import base list strings.

Local Open Scope Z_scope.
Local Open Scope nat_scope.

(** ** Values *)

Module JSModel.

Abbreviation loc := nat (only parsing).

Inductive symbol :=
| SymIterator
| SymUser (n : nat).

(** Property keys are strings or symbols. *)
Inductive pkey :=
| KStr (s : string)
| KSym (y : symbol).

Inductive value :=
| VUndefined
| VNull
| VBool (b : bool)
| VNum (z : Z)
| VNaN
| VStr (s : string)
| VSymbol (y : symbol)
| VObj (l : loc).

#[export] Instance symbol_eq_dec : EqDecision symbol.
Proof. solve_decision. Defined.
#[export] Instance pkey_eq_dec : EqDecision pkey.
Proof. solve_decision. Defined.
#[export] Instance value_eq_dec : EqDecision value.
Proof. solve_decision. Defined.

(** [a === b].  Objects compare by identity; NaN differs from itself. *)
Definition strict_eq (a b : value) : bool :=
  match a, b with
  | VUndefined, VUndefined => true
  | VNull, VNull => true
  | VBool x, VBool y => Bool.eqb x y
  | VNum x, VNum y => Z.eqb x y
  | VStr x, VStr y => String.eqb x y
  | VSymbol x, VSymbol y => bool_decide (x = y)
  | VObj x, VObj y => Nat.eqb x y
  | _, _ => false
  end.

(** [v === void 0] *)
Definition is_undefined (v : value) : bool := strict_eq v VUndefined.

(** [v == null], the test behind [?.] *)
Definition is_nullish (v : value) : bool :=
  match v with VUndefined | VNull => true | _ => false end.

(** ** Objects and the heap *)

Inductive payload :=
| POrdinary
| PArray (elems : list value)
| PFunction.

Record prop := Prop_ { p_value : value; p_enum : bool }.

(** [o_props] lists the own properties in the order in which
    [Object.keys] enumerates them. *)
Record object := Object {
  o_proto : value;
  o_payload : payload;
  o_props : list (pkey * prop)
}.

Abbreviation heap := (list object) (only parsing).

Fixpoint assoc {A} (k : pkey) (l : list (pkey * A)) : option A :=
  match l with
  | [] => None
  | (k', a) :: l' => if bool_decide (k = k') then Some a else assoc k l'
  end.

(** Decimal rendering of an array index. *)
Definition index_key (i : nat) : string :=
  NilEmpty.string_of_uint (Nat.to_uint i).

(** The index below [len] that a key denotes, if any. *)
Definition key_index (len : nat) (s : string) : option nat :=
  find (fun i => String.eqb (index_key i) s) (seq 0 len).

Definition is_exotic_key (len : nat) (s : string) : bool :=
  String.eqb s "length" || bool_decide (is_Some (key_index len s)).

(** Own property of an object; arrays answer [length] and their indices
    from the element list. *)
Definition own_property (o : object) (k : pkey) : option value :=
  match o_payload o, k with
  | PArray elems, KStr s =>
      if String.eqb s "length" then Some (VNum (Z.of_nat (length elems)))
      else match key_index (length elems) s with
           | Some i => elems !! i
           | None => p_value <$> assoc k (o_props o)
           end
  | _, _ => p_value <$> assoc k (o_props o)
  end.

(** Walk of the prototype chain.  [None]: the walk met a dangling
    reference or ran longer than the heap is large (a cyclic chain, which
    JavaScript rules out); [Some None]: no such property. *)
Fixpoint lookup_chain (fuel : nat) (h : heap) (l : loc) (k : pkey)
  : option (option value) :=
  match fuel with
  | 0 => None
  | S fuel' =>
      match h !! l with
      | None => None
      | Some o =>
          match own_property o k with
          | Some v => Some (Some v)
          | None =>
              match o_proto o with
              | VObj p => lookup_chain fuel' h p k
              | _ => Some None
              end
          end
      end
  end.

Definition find_property (h : heap) (l : loc) (k : pkey) : option (option value) :=
  lookup_chain (length h) h l k.

(** ** Computations: a heap is threaded, a computation returns or throws.
    [None] means that the model gives the computation no meaning. *)

Inductive outcome (A : Type) :=
| Ret (a : A)
| Throw (e : value).
Arguments Ret {A} a.
Arguments Throw {A} e.

Definition M (A : Type) := heap -> option (outcome A * heap).

Definition ret {A} (a : A) : M A := fun h => Some (Ret a, h).
Definition throw {A} (e : value) : M A := fun h => Some (Throw e, h).
Definition stuck {A} : M A := fun _ => None.

Definition bind {A B} (m : M A) (k : A -> M B) : M B :=
  fun h =>
    match m h with
    | Some (Ret a, h') => k a h'
    | Some (Throw e, h') => Some (Throw e, h')
    | None => None
    end.

Declare Scope js_scope.
Delimit Scope js_scope with js.
Notation "x <- m ;; k" := (bind m (fun x => k))
  (at level 20, m at level 99, k at level 200, only parsing) : js_scope.
Local Open Scope js_scope.

(** [new]: the fresh object gets the next free location. *)
Definition alloc (o : object) : M loc :=
  fun h => Some (Ret (length h), h ++ [o]).

(** ** The built-in objects that the source reaches

    Each is kept with its prototype link and, of its properties, the
    ones a statement below reads: [constructor], [prototype], [length],
    [name], [message] and [Symbol.iterator]. *)

Definition loc_ObjectPrototype : loc := 0.
Definition loc_Object : loc := 1.
Definition loc_FunctionPrototype : loc := 2.
Definition loc_Function : loc := 3.
Definition loc_ArrayPrototype : loc := 4.
Definition loc_Array : loc := 5.
Definition loc_ArrayValues : loc := 6.
Definition loc_NumberPrototype : loc := 7.
Definition loc_Number : loc := 8.
Definition loc_StringPrototype : loc := 9.
Definition loc_String : loc := 10.
Definition loc_StringIterator : loc := 11.
Definition loc_BooleanPrototype : loc := 12.
Definition loc_Boolean : loc := 13.
Definition loc_SymbolPrototype : loc := 14.
Definition loc_Symbol : loc := 15.
Definition loc_ErrorPrototype : loc := 16.
Definition loc_Error : loc := 17.
Definition loc_TypeErrorPrototype : loc := 18.
Definition loc_TypeError : loc := 19.
Definition loc_AggregateErrorPrototype : loc := 20.
Definition loc_AggregateError : loc := 21.

Definition hidden (v : value) : prop := Prop_ v false.
Definition visible (v : value) : prop := Prop_ v true.

(** A prototype object with its [constructor] link. *)
Definition prototype_object (proto : value) (pl : payload) (ctor : loc)
  (more : list (pkey * prop)) : object :=
  Object proto pl ((KStr "constructor", hidden (VObj ctor)) :: more).

(** A constructor function with its [length] and [prototype]. *)
Definition constructor_object (proto : loc) (len : Z) (prototype : loc) : object :=
  Object (VObj proto) PFunction
    [(KStr "length", hidden (VNum len)); (KStr "prototype", hidden (VObj prototype))].

Definition function_object (len : Z) : object :=
  Object (VObj loc_FunctionPrototype) PFunction [(KStr "length", hidden (VNum len))].

Definition builtins : heap :=
  [ prototype_object VNull POrdinary loc_Object [];
    constructor_object loc_FunctionPrototype 1 loc_ObjectPrototype;
    prototype_object (VObj loc_ObjectPrototype) PFunction loc_Function [];
    constructor_object loc_FunctionPrototype 1 loc_FunctionPrototype;
    prototype_object (VObj loc_ObjectPrototype) (PArray []) loc_Array
      [(KSym SymIterator, hidden (VObj loc_ArrayValues))];
    constructor_object loc_FunctionPrototype 1 loc_ArrayPrototype;
    function_object 0;
    prototype_object (VObj loc_ObjectPrototype) POrdinary loc_Number [];
    constructor_object loc_FunctionPrototype 1 loc_NumberPrototype;
    prototype_object (VObj loc_ObjectPrototype) POrdinary loc_String
      [(KSym SymIterator, hidden (VObj loc_StringIterator))];
    constructor_object loc_FunctionPrototype 1 loc_StringPrototype;
    function_object 0;
    prototype_object (VObj loc_ObjectPrototype) POrdinary loc_Boolean [];
    constructor_object loc_FunctionPrototype 1 loc_BooleanPrototype;
    prototype_object (VObj loc_ObjectPrototype) POrdinary loc_Symbol [];
    constructor_object loc_FunctionPrototype 0 loc_SymbolPrototype;
    prototype_object (VObj loc_ObjectPrototype) POrdinary loc_Error
      [(KStr "name", hidden (VStr "Error")); (KStr "message", hidden (VStr ""))];
    constructor_object loc_FunctionPrototype 1 loc_ErrorPrototype;
    prototype_object (VObj loc_ErrorPrototype) POrdinary loc_TypeError
      [(KStr "name", hidden (VStr "TypeError")); (KStr "message", hidden (VStr ""))];
    constructor_object loc_Error 1 loc_TypeErrorPrototype;
    prototype_object (VObj loc_ErrorPrototype) POrdinary loc_AggregateError
      [(KStr "name", hidden (VStr "AggregateError")); (KStr "message", hidden (VStr ""))];
    constructor_object loc_Error 2 loc_AggregateErrorPrototype ].

(** ** Operations of the language *)

(** The object a [TypeError] raised by the language itself carries; its
    message is left to the engine and not modelled. *)
Definition type_error_object : object :=
  Object (VObj loc_TypeErrorPrototype) POrdinary [].

Definition throw_type_error {A} : M A :=
  fun h => Some (Throw (VObj (length h)), h ++ [type_error_object]).

(** [new Error(message)] *)
Definition error_object (message : string) : object :=
  Object (VObj loc_ErrorPrototype) POrdinary [(KStr "message", hidden (VStr message))].

(** An array literal or a rest-parameter array. *)
Definition array_object (elems : list value) : object :=
  Object (VObj loc_ArrayPrototype) (PArray elems) [].

Definition alloc_array (elems : list value) : M value :=
  l <- alloc (array_object elems) ;; ret (VObj l).

Definition read_object (l : loc) : M object :=
  fun h => match h !! l with Some o => Some (Ret o, h) | None => None end.

Definition get_object (l : loc) (k : pkey) : M value :=
  fun h =>
    match find_property h l k with
    | Some r => Some (Ret (default VUndefined r), h)
    | None => None
    end.

Definition string_own (s : string) (k : pkey) : option value :=
  match k with
  | KStr ks =>
      if String.eqb ks "length" then Some (VNum (Z.of_nat (String.length s)))
      else match key_index (String.length s) ks with
           | Some i => (fun a => VStr (String a EmptyString)) <$> String.get i s
           | None => None
           end
  | KSym _ => None
  end.

(** [v[k]]: a property read; it throws on [null] and [undefined], and
    reads through the wrapper prototype on the other primitives. *)
Definition get (v : value) (k : pkey) : M value :=
  match v with
  | VUndefined | VNull => throw_type_error
  | VBool _ => get_object loc_BooleanPrototype k
  | VNum _ | VNaN => get_object loc_NumberPrototype k
  | VStr s =>
      match string_own s k with
      | Some x => ret x
      | None => get_object loc_StringPrototype k
      end
  | VSymbol _ => get_object loc_SymbolPrototype k
  | VObj l => get_object l k
  end.

(** [v?.k] *)
Definition get_optional (v : value) (k : pkey) : M value :=
  if is_nullish v then ret VUndefined else get v k.

(** [k in v]: throws unless [v] is an object. *)
Definition has_property (k : pkey) (v : value) : M bool :=
  match v with
  | VObj l =>
      fun h =>
        match find_property h l k with
        | Some r => Some (Ret (bool_decide (is_Some r)), h)
        | None => None
        end
  | _ => throw_type_error
  end.

(** [typeof v] *)
Definition typeof (v : value) : M string :=
  match v with
  | VUndefined => ret "undefined"
  | VNull => ret "object"
  | VBool _ => ret "boolean"
  | VNum _ | VNaN => ret "number"
  | VStr _ => ret "string"
  | VSymbol _ => ret "symbol"
  | VObj l =>
      o <- read_object l ;;
      ret (match o_payload o with PFunction => "function" | _ => "object" end)
  end.

Fixpoint put {A} (k : pkey) (a : A) (f : A -> A) (l : list (pkey * A)) : list (pkey * A) :=
  match l with
  | [] => [(k, a)]
  | (k', b) :: l' =>
      if bool_decide (k = k') then (k', f b) :: l' else (k', b) :: put k a f l'
  end.

(** Writing an own data property: an existing one keeps its place and
    its enumerability, a new one goes last and is enumerable. *)
Definition write_own (o : object) (k : pkey) (x : value) : object :=
  Object (o_proto o) (o_payload o)
    (put k (visible x) (fun p => Prop_ x (p_enum p)) (o_props o)).

Definition exotic_write (o : object) (k : pkey) : bool :=
  match o_payload o, k with
  | PArray elems, KStr s => is_exotic_key (length elems) s
  | _, _ => false
  end.

(** [v.k = x] in non-strict code: it throws on [null] and [undefined]
    and is dropped on the other primitives.  The source only ever assigns
    the keys [property] and [index]; writes to an array's [length] or
    indices are left without a meaning. *)
Definition set_property (v : value) (k : pkey) (x : value) : M unit :=
  match v with
  | VUndefined | VNull => throw_type_error
  | VObj l =>
      fun h =>
        match h !! l with
        | Some o =>
            if exotic_write o k then None
            else Some (Ret tt, <[l := write_own o k x]> h)
        | None => None
        end
  | _ => ret tt
  end.

(** A function value together with what calling it does.  A value that
    is not callable has the call behaviour [not_callable]. *)
Record func := Func {
  f_val : value;
  f_call : value -> M value
}.

Definition not_callable (v : value) : func :=
  Func v (fun _ => throw_type_error).

(** A [function (received) {...}] expression: the function object is
    allocated where the expression is evaluated.  Of its own properties
    only [length], which the source reads, is kept. *)
Definition closure (len : Z) (body : value -> M value) : M func :=
  l <- alloc (function_object len) ;; ret (Func (VObj l) body).

(** [Object.assign(target, source)] on a fresh target: each field of the
    source literal is written in turn. *)
Definition assign_fields (fields : list (pkey * value)) (o : object) : object :=
  fold_left (fun acc kv => write_own acc (fst kv) (snd kv)) fields o.

(** [new AggregateError(errs)]: the errors are copied into a fresh array
    held by the [errors] property. *)
Definition aggregate_error_object (arr : value) : object :=
  Object (VObj loc_AggregateErrorPrototype) POrdinary [(KStr "errors", hidden arr)].

Definition new_AggregateError (errs : list value) : M value :=
  arr <- alloc_array errs ;;
  l <- alloc (aggregate_error_object arr) ;;
  ret (VObj l).

(** [for (const x of iterable) body]: the iteration protocol of arrays,
    which reads the array anew at every step.  An iterable whose
    [Symbol.iterator] method is not a function throws; iterators written
    by the user have no code in this model and are given no meaning.
    [fuel] bounds the number of steps. *)
Fixpoint array_walk {St} (fuel : nat) (arr : loc) (i : nat)
  (body : value -> St -> M St) (s : St) : M St :=
  match fuel with
  | 0 => stuck
  | S fuel' =>
      o <- read_object arr ;;
      match o_payload o with
      | PArray elems =>
          match elems !! i with
          | Some v => s' <- body v s ;; array_walk fuel' arr (S i) body s'
          | None => ret s
          end
      | _ => stuck
      end
  end.

Definition for_of {St} (fuel : nat) (iterable : value)
  (body : value -> St -> M St) (s : St) : M St :=
  method <- get iterable (KSym SymIterator) ;;
  t <- typeof method ;;
  if negb (String.eqb t "function") then throw_type_error
  else
    match iterable with
    | VObj arr =>
        if strict_eq method (VObj loc_ArrayValues)
        then array_walk fuel arr 0 body s
        else stuck
    | _ => stuck
    end.

(** A map of named checks, as [expect.properties] receives it: the
    object itself and its own enumerable string-keyed properties in the
    order of [Object.keys], each value with its call behaviour. *)
Record checkmap := Checkmap {
  m_val : value;
  m_entries : list (string * func)
}.

(** [Object.values(m)]; it throws on [null] and [undefined]. *)
Definition object_values (m : checkmap) : M (list value) :=
  if is_nullish (m_val m) then throw_type_error
  else ret (map (fun e => f_val (snd e)) (m_entries m)).

Definition key_value (k : pkey) : value :=
  match k with KStr s => VStr s | KSym y => VSymbol y end.

(** ** Vocabulary of the statements *)

(** A check reports a failure by returning anything but [undefined]. *)
Definition defined (v : value) : bool := negb (is_undefined v).

(** The values that a list of checks returns when each is called in turn
    on one value, none of them throwing. *)
Fixpoint run_all (received : value) (checks : list func) : M (list value) :=
  match checks with
  | [] => ret []
  | c :: checks' =>
      r <- f_call c received ;;
      rs <- run_all received checks' ;;
      ret (r :: rs)
  end.

(** In heap [h], the value of [c] is a function object whose [length]
    is 1. *)
Definition unary_function (h : heap) (c : func) : Prop :=
  typeof (f_val c) h = Some (Ret "function", h) /\
  get (f_val c) (KStr "length") h = Some (Ret (VNum 1), h).

Definition is_object (v : value) : bool :=
  match v with VObj _ => true | _ => false end.

(** The values that the named checks of a map return when each is
    called in turn on its field of one value, none of them throwing. *)
Fixpoint run_fields (received : value) (entries : list (string * func))
  : M (list value) :=
  match entries with
  | [] => ret []
  | (key, c) :: entries' =>
      x <- get received (KStr key) ;;
      r <- f_call c x ;;
      rs <- run_fields received entries' ;;
      ret (r :: rs)
  end.

(** In heap [h] the object at [arr] is an array of the elements
    [elems] that iterates with the built-in array iterator. *)
Definition builtin_array (h : heap) (arr : loc) (elems : list value) : Prop :=
  (exists o, h !! arr = Some o /\ o_payload o = PArray elems) /\
  has_property (KSym SymIterator) (VObj arr) h = Some (Ret true, h) /\
  get (VObj arr) (KSym SymIterator) h = Some (Ret (VObj loc_ArrayValues), h) /\
  typeof (VObj loc_ArrayValues) h = Some (Ret "function", h).

(** The loop of OrdinaryHasInstance: does the prototype chain of the
    object at [l] reach the object at [p]?  [None] as in
    [lookup_chain]. *)
Fixpoint proto_walk (fuel : nat) (h : heap) (l p : loc) : option bool :=
  match fuel with
  | 0 => None
  | S fuel' =>
      match h !! l with
      | None => None
      | Some o =>
          match o_proto o with
          | VObj q => if Nat.eqb q p then Some true else proto_walk fuel' h q p
          | _ => Some false
          end
      end
  end.

(** [v instanceof target] with the built-in [Symbol.hasInstance]: it
    throws unless [target] is a function whose [prototype] is an object
    (the latter is only looked at when [v] is an object).  Handlers
    written by the user have no code in this model. *)
Definition instanceof_op (v target : value) : M bool :=
  match target with
  | VObj _ =>
      t <- typeof target ;;
      if negb (String.eqb t "function") then throw_type_error
      else
        match v with
        | VObj l =>
            P <- get target (KStr "prototype") ;;
            match P with
            | VObj p =>
                fun h =>
                  match proto_walk (length h) h l p with
                  | Some b => Some (Ret b, h)
                  | None => None
                  end
            | _ => throw_type_error
            end
        | _ => ret false
        end
  | _ => throw_type_error
  end.

End JSModel.

(** ** [src/check.ts] *)

Module TS.
Import JSModel.
Local Open Scope js_scope.

(** The objects the module creates when it is loaded. *)
Definition loc_ErrCheckHasNoChecks : loc := 22.
Definition loc_ErrNoOptions : loc := 23.
Definition loc_ErrNotIterable : loc := 24.
Definition loc_CheckErrPrototype : loc := 25.
Definition loc_CheckErr : loc := 26.
Definition loc_check : loc := 27.

Definition ErrCheckHasNoChecks : value := VObj loc_ErrCheckHasNoChecks.
Definition ErrNoOptions : value := VObj loc_ErrNoOptions.
Definition ErrNotIterable : value := VObj loc_ErrNotIterable.

Definition module_heap : heap :=
  builtins ++
  [ error_object "check called with no checks";
    error_object "no options were provided";
    error_object "value was not iterable";
    prototype_object (VObj loc_ErrorPrototype) POrdinary loc_CheckErr [];
    constructor_object loc_Error 1 loc_CheckErrPrototype;
    function_object 1 ].

(** [class Result]: the [errors] array of the object. *)
Record Result := { errors : list value }.

Definition isValid (r : Result) : bool := length (errors r) =? 0.

Definition must (r : Result) : M unit :=
  if 0 <? length (errors r)
  then e <- new_AggregateError (errors r) ;; throw e
  else ret tt.

(** [new CheckErr(fields)]: the two field declarations are types only,
    the constructor copies the fields of its argument.  The [stack] that
    an engine may attach to an error is not modelled. *)
Definition CheckErr_object (fields : list (pkey * value)) : object :=
  assign_fields fields (Object (VObj loc_CheckErrPrototype) POrdinary []).

Definition new_CheckErr (fields : list (pkey * value)) : M value :=
  l <- alloc (CheckErr_object fields) ;; ret (VObj l).

Fixpoint check_loop (received : value) (checks : list func) (errors : list value)
  : M (list value) :=
  match checks with
  | [] => ret errors
  | c :: checks' =>
      err <- f_call c received ;;
      check_loop received checks'
        (if negb (is_undefined err) then errors ++ [err] else errors)
  end.

Definition check (received : value) (checks : list func) : M Result :=
  if length checks =? 0 then throw ErrCheckHasNoChecks
  else
    errors <- check_loop received checks [] ;;
    ret {| errors := errors |}.

(** The loop of [any]: [n] iterations are left; [true] when the loop
    returned. *)
Fixpoint any_loop (received expected : value) (n : nat) : bool :=
  match n with
  | 0 => false
  | S n' => if strict_eq received expected then true else any_loop received expected n'
  end.

Definition any (expected : list value) : M func :=
  arr <- alloc_array expected ;;
  closure 1 (fun received =>
    if any_loop received arr (length expected) then ret VUndefined
    else new_CheckErr [(KStr "expected", arr); (KStr "received", received)]).

Definition value_ (expected : value) : M func :=
  closure 1 (fun received =>
    if strict_eq received expected then ret VUndefined
    else new_CheckErr [(KStr "expected", expected); (KStr "received", received)]).

(** The loop of [not]: [true] when the loop returned a failure. *)
Fixpoint not_loop (received expected : value) (n : nat) : bool :=
  match n with
  | 0 => false
  | S n' =>
      if negb (strict_eq received expected) then not_loop received expected n'
      else true
  end.

Definition not (expected : list value) : M func :=
  arr <- alloc_array expected ;;
  closure 1 (fun received =>
    if not_loop received arr (length expected)
    then new_CheckErr [(KStr "expected", arr); (KStr "received", received)]
    else ret VUndefined).

Definition type (expected : value) : M func :=
  closure 1 (fun received =>
    c <- get_optional received (KStr "constructor") ;;
    if strict_eq c expected then ret VUndefined
    else
      c' <- get_optional received (KStr "constructor") ;;
      new_CheckErr [(KStr "expected", expected); (KStr "received", c')]).

Fixpoint optional_loop (received : value) (options : list value) : bool :=
  match options with
  | [] => false
  | o :: options' =>
      if strict_eq received o then true else optional_loop received options'
  end.

Definition optional (constructor : value) (options : list value) : M func :=
  if length options =? 0 then throw ErrNoOptions
  else
    typeCheck <- type constructor ;;
    closure 1 (fun received =>
      r <- f_call typeCheck received ;;
      if is_undefined r then ret VUndefined
      else if optional_loop received options then ret VUndefined
      else
        arr <- alloc_array (constructor :: options) ;;
        new_CheckErr [(KStr "expected", arr); (KStr "received", received)]).

Definition property (property : pkey) (expected : value) : M func :=
  closure 1 (fun received =>
    x <- get received property ;;
    if strict_eq x expected then ret VUndefined
    else
      x' <- get received property ;;
      new_CheckErr [(KStr "property", key_value property);
                    (KStr "expected", expected); (KStr "received", x')]).

Fixpoint properties_loop (received : value) (entries : list (string * func))
  (errs : list value) : M (list value) :=
  match entries with
  | [] => ret errs
  | (key, c) :: entries' =>
      x <- get received (KStr key) ;;
      err <- f_call c x ;;
      if is_undefined err then properties_loop received entries' errs
      else
        _ <- set_property err (KStr "property") (VStr key) ;;
        properties_loop received entries' (errs ++ [err])
  end.

Definition properties (expected : checkmap) : M func :=
  vals <- object_values expected ;;
  if length vals =? 0 then throw ErrCheckHasNoChecks
  else
    closure 1 (fun received =>
      errs <- properties_loop received (m_entries expected) [] ;;
      if 0 <? length errs
      then
        arr <- alloc_array errs ;;
        new_CheckErr [(KStr "expected", m_val expected);
                      (KStr "received", received); (KStr "errs", arr)]
      else ret VUndefined).

(** The body of the [for ... of] loop of [forOf], on the pair of the
    counter [i] and the array [errs]. *)
Definition forOf_body (check : func) (value : value) (st : nat * list JSModel.value)
  : M (nat * list JSModel.value) :=
  err <- f_call check value ;;
  if negb (is_undefined err)
  then
    _ <- set_property err (KStr "index") (VNum (Z.of_nat (fst st))) ;;
    ret (S (fst st), snd st ++ [err])
  else ret (S (fst st), snd st).

Definition forOf (fuel : nat) (check : func) : M func :=
  closure 1 (fun received =>
    b <- has_property (KSym SymIterator) received ;;
    if negb b
    then new_CheckErr [(KStr "expected", f_val check); (KStr "received", received);
                       (KStr "err", ErrNotIterable)]
    else
      st <- for_of fuel received (forOf_body check) (0, []) ;;
      if 0 <? length (snd st)
      then
        arr <- alloc_array (snd st) ;;
        new_CheckErr [(KStr "expected", f_val check); (KStr "received", received);
                      (KStr "errs", arr)]
      else ret VUndefined).

Fixpoint and_loop (received : value) (checks : list func) (errs : list value)
  : M (list value) :=
  match checks with
  | [] => ret errs
  | c :: checks' =>
      err <- f_call c received ;;
      if negb (is_undefined err) then and_loop received checks' errs
      else and_loop received checks' (errs ++ [err])
  end.

Definition and (checks : list func) : M func :=
  rest <- alloc_array (map f_val checks) ;;
  closure 1 (fun received =>
    errs <- and_loop received checks [] ;;
    if 0 <? length errs
    then
      arr <- alloc_array errs ;;
      new_CheckErr [(KStr "expected", rest); (KStr "received", received);
                    (KStr "errs", arr)]
    else ret VUndefined).

(** The loop of [or]: [None] when the loop returned. *)
Fixpoint or_loop (received : value) (checks : list func) (errs : list value)
  : M (option (list value)) :=
  match checks with
  | [] => ret (Some errs)
  | c :: checks' =>
      err <- f_call c received ;;
      if is_undefined err then ret None
      else or_loop received checks' (errs ++ [err])
  end.

Definition or (checks : list func) : M func :=
  closure 1 (fun received =>
    r <- or_loop received checks [] ;;
    match r with
    | None => ret VUndefined
    | Some errs =>
        arr <- alloc_array errs ;;
        new_CheckErr [(KStr "expected", VObj loc_check); (KStr "received", received);
                      (KStr "errs", arr)]
    end).

Definition instanceof (expected : value) : M func :=
  closure 1 (fun received =>
    b <- instanceof_op received expected ;;
    if b then ret VUndefined
    else new_CheckErr [(KStr "expected", expected); (KStr "received", received)]).

End TS.

(** ** [src/check.js] *)

Module JS.
Import JSModel.
Local Open Scope js_scope.

Definition loc_ErrCheckHasNoChecks : loc := 22.
Definition loc_ErrExpectedFunction : loc := 23.
Definition loc_ErrExpectedPropertyKey : loc := 24.
Definition loc_ErrExpectedOneArgument : loc := 25.
Definition loc_ErrNoOptions : loc := 26.
Definition loc_ErrNotIterable : loc := 27.
Definition loc_CheckErrPrototype : loc := 28.
Definition loc_CheckErr : loc := 29.

Definition ErrCheckHasNoChecks : value := VObj loc_ErrCheckHasNoChecks.
Definition ErrExpectedFunction : value := VObj loc_ErrExpectedFunction.
Definition ErrExpectedPropertyKey : value := VObj loc_ErrExpectedPropertyKey.
Definition ErrExpectedOneArgument : value := VObj loc_ErrExpectedOneArgument.
Definition ErrNoOptions : value := VObj loc_ErrNoOptions.
Definition ErrNotIterable : value := VObj loc_ErrNotIterable.

Definition module_heap : heap :=
  builtins ++
  [ error_object "check called with no checks";
    error_object "expected function";
    error_object "expected property key";
    error_object "expected function to take one argument";
    error_object "no options were provided";
    error_object "value was not iterable";
    prototype_object (VObj loc_ErrorPrototype) POrdinary loc_CheckErr [];
    constructor_object loc_Error 1 loc_CheckErrPrototype ].

Record Result := { errors : list value }.

Definition isValid (r : Result) : bool := length (errors r) =? 0.

Definition must (r : Result) : M unit :=
  if 0 <? length (errors r)
  then e <- new_AggregateError (errors r) ;; throw e
  else ret tt.

(** [new CheckErr(fields)]: the class fields [expected] and [received]
    are defined first, then the constructor copies the fields of its
    argument. *)
Definition CheckErr_object (fields : list (pkey * value)) : object :=
  assign_fields fields
    (Object (VObj loc_CheckErrPrototype) POrdinary
       [(KStr "expected", visible VUndefined);
        (KStr "received", visible VUndefined)]).

Definition new_CheckErr (fields : list (pkey * value)) : M value :=
  l <- alloc (CheckErr_object fields) ;; ret (VObj l).

Definition checkCheck (check : func) : M unit :=
  t <- typeof (f_val check) ;;
  if negb (String.eqb t "function") then throw ErrExpectedFunction
  else
    len <- get (f_val check) (KStr "length") ;;
    if negb (strict_eq len (VNum 1)) then throw ErrExpectedOneArgument
    else ret tt.

Fixpoint checkChecks_loop (checks : list func) : M unit :=
  match checks with
  | [] => ret tt
  | c :: checks' => _ <- checkCheck c ;; checkChecks_loop checks'
  end.

Definition checkChecks (checks : list func) : M unit :=
  if length checks =? 0 then throw ErrCheckHasNoChecks
  else checkChecks_loop checks.

Fixpoint check_loop (received : value) (checks : list func) (errors : list value)
  : M (list value) :=
  match checks with
  | [] => ret errors
  | c :: checks' =>
      err <- f_call c received ;;
      check_loop received checks'
        (if negb (is_undefined err) then errors ++ [err] else errors)
  end.

Definition check (received : value) (checks : list func) : M Result :=
  _ <- checkChecks checks ;;
  errors <- check_loop received checks [] ;;
  ret {| errors := errors |}.

Fixpoint any_loop (received expected : value) (n : nat) : bool :=
  match n with
  | 0 => false
  | S n' => if strict_eq received expected then true else any_loop received expected n'
  end.

Definition any (expected : list value) : M func :=
  arr <- alloc_array expected ;;
  closure 1 (fun received =>
    if any_loop received arr (length expected) then ret VUndefined
    else new_CheckErr [(KStr "expected", arr); (KStr "received", received)]).

Definition value_ (expected : value) : M func :=
  closure 1 (fun received =>
    if strict_eq received expected then ret VUndefined
    else new_CheckErr [(KStr "expected", expected); (KStr "received", received)]).

Fixpoint not_loop (received expected : value) (n : nat) : bool :=
  match n with
  | 0 => false
  | S n' =>
      if negb (strict_eq received expected) then not_loop received expected n'
      else true
  end.

Definition not (expected : list value) : M func :=
  arr <- alloc_array expected ;;
  closure 1 (fun received =>
    if not_loop received arr (length expected)
    then new_CheckErr [(KStr "expected", arr); (KStr "received", received)]
    else ret VUndefined).

Definition type (expected : value) : M func :=
  t <- typeof expected ;;
  if negb (String.eqb t "function") then throw ErrExpectedFunction
  else
    closure 1 (fun received =>
      c <- get_optional received (KStr "constructor") ;;
      tc <- typeof c ;;
      if strict_eq (VStr tc) expected then ret VUndefined
      else
        c' <- get_optional received (KStr "constructor") ;;
        new_CheckErr [(KStr "expected", expected); (KStr "received", c')]).

Fixpoint optional_loop (received : value) (options : list value) : bool :=
  match options with
  | [] => false
  | o :: options' =>
      if strict_eq received o then true else optional_loop received options'
  end.

Definition optional (constructor : value) (options : list value) : M func :=
  if length options =? 0 then throw ErrNoOptions
  else
    typeCheck <- type constructor ;;
    closure 1 (fun received =>
      r <- f_call typeCheck received ;;
      if is_undefined r then ret VUndefined
      else if optional_loop received options then ret VUndefined
      else
        arr <- alloc_array (constructor :: options) ;;
        new_CheckErr [(KStr "expected", arr); (KStr "received", received)]).

(** The key that a value names in [received[property]]; the guard of
    [property] lets only strings and symbols through. *)
Definition to_key (v : value) : M pkey :=
  match v with
  | VStr s => ret (KStr s)
  | VSymbol y => ret (KSym y)
  | _ => stuck
  end.

Definition property (property expected : value) : M func :=
  t <- typeof property ;;
  if negb (String.eqb t "string") && negb (String.eqb t "symbol")
  then throw ErrExpectedPropertyKey
  else
    closure 1 (fun received =>
      k <- to_key property ;;
      x <- get received k ;;
      if strict_eq x expected then ret VUndefined
      else
        x' <- get received k ;;
        new_CheckErr [(KStr "property", property);
                      (KStr "expected", expected); (KStr "received", x')]).

Fixpoint properties_loop (received : value) (entries : list (string * func))
  (errs : list value) : M (list value) :=
  match entries with
  | [] => ret errs
  | (key, c) :: entries' =>
      x <- get received (KStr key) ;;
      err <- f_call c x ;;
      if is_undefined err then properties_loop received entries' errs
      else
        _ <- set_property err (KStr "property") (VStr key) ;;
        properties_loop received entries' (errs ++ [err])
  end.

(** [checkChecks(Object.values(object))]: the array of values is handed
    over as the one argument. *)
Definition properties (object : checkmap) : M func :=
  vals <- object_values object ;;
  arr <- alloc_array vals ;;
  _ <- checkChecks [not_callable arr] ;;
  closure 1 (fun received =>
    errs <- properties_loop received (m_entries object) [] ;;
    if 0 <? length errs then new_AggregateError errs
    else ret VUndefined).

Definition forOf_body (check : func) (value : value) (st : nat * list JSModel.value)
  : M (nat * list JSModel.value) :=
  err <- f_call check value ;;
  if negb (is_undefined err)
  then
    _ <- set_property err (KStr "index") (VNum (Z.of_nat (fst st))) ;;
    ret (S (fst st), snd st ++ [err])
  else ret (S (fst st), snd st).

Definition forOf (fuel : nat) (check : func) : M func :=
  _ <- checkCheck check ;;
  closure 1 (fun received =>
    b <- has_property (KSym SymIterator) received ;;
    if negb b then ret ErrNotIterable
    else
      st <- for_of fuel received (forOf_body check) (0, []) ;;
      if 0 <? length (snd st) then new_AggregateError (snd st)
      else ret VUndefined).

Fixpoint and_loop (received : value) (checks : list func) (errs : list value)
  : M (list value) :=
  match checks with
  | [] => ret errs
  | c :: checks' =>
      err <- f_call c received ;;
      if negb (is_undefined err) then and_loop received checks' errs
      else and_loop received checks' (errs ++ [err])
  end.

Definition and (checks : list func) : M func :=
  _ <- checkChecks checks ;;
  closure 1 (fun received =>
    errs <- and_loop received checks [] ;;
    if 0 <? length errs then new_AggregateError errs
    else ret VUndefined).

Fixpoint or_loop (received : value) (checks : list func) (errs : list value)
  : M (option (list value)) :=
  match checks with
  | [] => ret (Some errs)
  | c :: checks' =>
      err <- f_call c received ;;
      if is_undefined err then ret None
      else or_loop received checks' (errs ++ [err])
  end.

Definition or (checks : list func) : M func :=
  _ <- checkChecks checks ;;
  closure 1 (fun received =>
    r <- or_loop received checks [] ;;
    match r with
    | None => ret VUndefined
    | Some errs => new_AggregateError errs
    end).

Definition instanceof (expected : value) : M func :=
  t <- typeof expected ;;
  if negb (String.eqb t "function") then throw ErrExpectedFunction
  else
    closure 1 (fun received =>
      b <- instanceof_op received expected ;;
      if b then ret VUndefined
      else new_CheckErr [(KStr "expected", expected); (KStr "received", received)]).

(** Why [checkCheck] turns an argument down in heap [h], and with which
    error. *)
Definition rejected (h : heap) (c : func) (e : value) : Prop :=
  (exists t, typeof (f_val c) h = Some (Ret t, h) /\ t <> "function" /\
             e = ErrExpectedFunction) \/
  (typeof (f_val c) h = Some (Ret "function", h) /\
   exists len, get (f_val c) (KStr "length") h = Some (Ret len, h) /\
               strict_eq len (VNum 1) = false /\ e = ErrExpectedOneArgument).

(** The calls of the factories of [expect] and [logic]. *)
Inductive factory : M func -> Prop :=
| factory_any expected : factory (any expected)
| factory_value expected : factory (value_ expected)
| factory_not expected : factory (not expected)
| factory_type expected : factory (type expected)
| factory_optional constructor options : factory (optional constructor options)
| factory_instanceof expected : factory (instanceof expected)
| factory_property key expected : factory (property key expected)
| factory_properties object : factory (properties object)
| factory_forOf fuel check : factory (forOf fuel check)
| factory_and checks : factory (and checks)
| factory_or checks : factory (or checks).

End JS.

(** ** Sample inputs *)

Module Sample.
Import JSModel.
Local Open Scope js_scope.

(** What a computation returned and the heap it left. *)
Definition result_of {A} (d : A) (r : option (outcome A * heap)) : A :=
  match r with Some (Ret a, _) => a | _ => d end.

Definition heap_of {A} (h : heap) (r : option (outcome A * heap)) : heap :=
  match r with Some (_, h') => h' | None => h end.

Definition plain_object (props : list (pkey * value)) : object :=
  Object (VObj loc_ObjectPrototype) POrdinary
    (map (fun kv => (fst kv, visible (snd kv))) props).

Definition no_func : func := not_callable VUndefined.

(** With [check.ts] loaded: [expect.value(1)], the candidate [{a: 2}],
    the map [{a: expect.value(1)}], the arrays [[]] and [[1, 2, "3"]],
    the object [{}] and [expect.type(Number)]. *)
Definition ts_setup : M (func * value * value * value * value * value * func) :=
  v1 <- TS.value_ (VNum 1) ;;
  cand <- alloc (plain_object [(KStr "a", VNum 2)]) ;;
  m <- alloc (plain_object [(KStr "a", f_val v1)]) ;;
  empty <- alloc_array [] ;;
  mixed <- alloc_array [VNum 1; VNum 2; VStr "3"] ;;
  o <- alloc (plain_object []) ;;
  tn <- TS.type (VObj loc_Number) ;;
  ret (v1, VObj cand, VObj m, empty, mixed, VObj o, tn).

Definition ts_heap : heap := heap_of [] (ts_setup TS.module_heap).
Definition ts_made :=
  result_of (no_func, VUndefined, VUndefined, VUndefined, VUndefined, VUndefined, no_func)
    (ts_setup TS.module_heap).
Definition ts_value_1 : func := ts_made.1.1.1.1.1.1.
Definition ts_a_is_2 : value := ts_made.1.1.1.1.1.2.
Definition ts_map : value := ts_made.1.1.1.1.2.
Definition ts_empty_array : value := ts_made.1.1.1.2.
Definition ts_mixed_array : value := ts_made.1.1.2.
Definition ts_empty_object : value := ts_made.1.2.
Definition ts_type_Number : func := ts_made.2.

(** With [check.js] loaded: [expect.value(5)], [expect.value(6)], the
    array [[]], the object [{}] and the map [{a: expect.value(5)}]. *)
Definition js_setup : M (func * func * value * value * value) :=
  v5 <- JS.value_ (VNum 5) ;;
  v6 <- JS.value_ (VNum 6) ;;
  empty <- alloc_array [] ;;
  o <- alloc (plain_object []) ;;
  m <- alloc (plain_object [(KStr "a", f_val v5)]) ;;
  ret (v5, v6, empty, VObj o, VObj m).

Definition js_heap : heap := heap_of [] (js_setup JS.module_heap).
Definition js_made :=
  result_of (no_func, no_func, VUndefined, VUndefined, VUndefined)
    (js_setup JS.module_heap).
Definition js_value_5 : func := js_made.1.1.1.1.
Definition js_value_6 : func := js_made.1.1.1.2.
Definition js_empty_array : value := js_made.1.1.2.
Definition js_empty_object : value := js_made.1.2.
Definition js_map : value := js_made.2.

End Sample.

Module MoreSamples.
Import JSModel Sample.
Local Open Scope js_scope.

(** After [ts_setup]: the array [[1, 1]] and the map
    [{a: expect.type(Number)}]. *)
Definition ts_setup2 : M (value * value) :=
  ones <- alloc_array [VNum 1; VNum 1] ;;
  m <- alloc (plain_object [(KStr "a", f_val ts_type_Number)]) ;;
  ret (ones, VObj m).

Definition ts_heap2 : heap := heap_of [] (ts_setup2 ts_heap).
Definition ts_made2 := result_of (VUndefined, VUndefined) (ts_setup2 ts_heap).
Definition ts_ones_array : value := ts_made2.1.
Definition ts_number_map : value := ts_made2.2.

(** After [js_setup]: [expect.property("a", 1)]. *)
Definition js_setup2 : M func := JS.property (VStr "a") (VNum 1).

Definition js_heap2 : heap := heap_of [] (js_setup2 js_heap).
Definition js_property_a : func := result_of no_func (js_setup2 js_heap).

End MoreSamples.

(** * Properties *)

Import JSModel.

(** ** The loops *)

Lemma bind_ret {A B} (m : M A) (k : A -> M B) h a h' :
  m h = Some (Ret a, h') -> bind m k h = k a h'.
Proof. intros E. unfold bind. now rewrite E. Qed.

Lemma bind_throw {A B} (m : M A) (k : A -> M B) h e h' :
  m h = Some (Throw e, h') -> bind m k h = Some (Throw e, h').
Proof. intros E. unfold bind. now rewrite E. Qed.

Lemma alloc_array_eq elems h :
  alloc_array elems h = Some (Ret (VObj (length h)), h ++ [array_object elems]).
Proof. reflexivity. Qed.

Lemma closure_eq len body h :
  closure len body h
  = Some (Ret (Func (VObj (length h)) body), h ++ [function_object len]).
Proof. reflexivity. Qed.

Lemma length_snoc {A} (l : list A) x : length (l ++ [x]) = S (length l).
Proof. rewrite length_app. simpl. lia. Qed.

Lemma run_all_cons received c checks h rets h' :
  run_all received (c :: checks) h = Some (Ret rets, h') ->
  exists r h1 rs,
    f_call c received h = Some (Ret r, h1) /\
    run_all received checks h1 = Some (Ret rs, h') /\ rets = r :: rs.
Proof.
  simpl. unfold bind at 1.
  destruct (f_call c received h) as [[[r|e] h1]|] eqn:E; try discriminate.
  unfold bind.
  destruct (run_all received checks h1) as [[[rs|e] h2]|] eqn:E'; try discriminate.
  unfold ret. intros [= <- <-]. eauto 10.
Qed.

(** The accumulating loop of [check] is: call every check, keep the
    defined returns. *)
Lemma TS_check_loop_eq received checks : forall errs h,
  TS.check_loop received checks errs h
  = bind (run_all received checks)
      (fun rets => ret (errs ++ List.filter defined rets)) h.
Proof.
  induction checks as [|c checks IH]; intros errs h.
  - simpl. unfold bind, ret. now rewrite app_nil_r.
  - simpl. unfold bind.
    destruct (f_call c received h) as [[[r|e] h1]|]; [|reflexivity..].
    rewrite IH. unfold bind, ret, defined.
    destruct (run_all received checks h1) as [[[rs|e] h2]|]; [|reflexivity..].
    simpl. destruct (negb (is_undefined r)); [now rewrite <- app_assoc|reflexivity].
Qed.

Lemma JS_check_loop_eq received checks : forall errs h,
  JS.check_loop received checks errs h
  = bind (run_all received checks)
      (fun rets => ret (errs ++ List.filter defined rets)) h.
Proof.
  induction checks as [|c checks IH]; intros errs h.
  - simpl. unfold bind, ret. now rewrite app_nil_r.
  - simpl. unfold bind.
    destruct (f_call c received h) as [[[r|e] h1]|]; [|reflexivity..].
    rewrite IH. unfold bind, ret, defined.
    destruct (run_all received checks h1) as [[[rs|e] h2]|]; [|reflexivity..].
    simpl. destruct (negb (is_undefined r)); [now rewrite <- app_assoc|reflexivity].
Qed.

Lemma JS_checkCheck_accepts h c :
  unary_function h c -> JS.checkCheck c h = Some (Ret tt, h).
Proof.
  intros [Ht Hl]. unfold JS.checkCheck.
  rewrite (bind_ret _ _ _ _ _ Ht). simpl.
  rewrite (bind_ret _ _ _ _ _ Hl). reflexivity.
Qed.

Lemma JS_checkChecks_loop_accepts h checks :
  Forall (unary_function h) checks ->
  JS.checkChecks_loop checks h = Some (Ret tt, h).
Proof.
  induction 1 as [|c checks Hc _ IH]; [reflexivity|].
  simpl. now rewrite (bind_ret _ _ _ _ _ (JS_checkCheck_accepts _ _ Hc)).
Qed.

Lemma JS_checkChecks_accepts h checks :
  checks <> [] -> Forall (unary_function h) checks ->
  JS.checkChecks checks h = Some (Ret tt, h).
Proof.
  intros Hne Hall. unfold JS.checkChecks.
  destruct checks as [|c checks]; [congruence|].
  now apply JS_checkChecks_loop_accepts.
Qed.

(** ** The evaluation entrypoint *)

(** C3: on a non-empty list of checks, [check] returns a Result exactly
    when every check returns on the value, each called in the order of
    the list; the [errors] of the Result are then the defined returns, in
    that order, so that their number is the number of checks that
    reported a failure.  [check.js] first asks that every check is a
    function of one argument. *)
Theorem check_collects_defined_returns
  (received : value) (checks : list func) (h : heap) :
  checks <> [] ->
  (forall r h',
     TS.check received checks h = Some (Ret r, h') <->
     exists rets,
       run_all received checks h = Some (Ret rets, h') /\
       r = {| TS.errors := List.filter defined rets |}) /\
  (Forall (unary_function h) checks ->
   forall r h',
     JS.check received checks h = Some (Ret r, h') <->
     exists rets,
       run_all received checks h = Some (Ret rets, h') /\
       r = {| JS.errors := List.filter defined rets |}) /\
  (forall rets,
     length (List.filter defined rets)
     = count_occ bool_dec (map defined rets) true).
Proof.
  intros Hne. split; [|split].
  - intros r h'. unfold TS.check.
    destruct checks as [|c checks]; [congruence|].
    change (length (c :: checks) =? 0) with false. cbv iota.
    unfold bind at 1. rewrite TS_check_loop_eq. unfold bind, ret.
    destruct (run_all received (c :: checks) h) as [[[rets|e] h1]|].
    + split.
      * intros [= <- <-]. eauto.
      * now intros (rets' & [= <- <-] & ->).
    + split; [discriminate|now intros (rets' & [=] & _)].
    + split; [discriminate|now intros (rets' & [=] & _)].
  - intros Hall r h'. unfold JS.check.
    rewrite (bind_ret _ _ _ _ _ (JS_checkChecks_accepts _ _ Hne Hall)).
    unfold bind at 1. rewrite JS_check_loop_eq. unfold bind, ret.
    destruct (run_all received checks h) as [[[rets|e] h1]|].
    + split.
      * intros [= <- <-]. eauto.
      * now intros (rets' & [= <- <-] & ->).
    + split; [discriminate|now intros (rets' & [=] & _)].
    + split; [discriminate|now intros (rets' & [=] & _)].
  - clear. induction rets as [|r rets IH]; [reflexivity|].
    simpl. destruct (defined r); simpl; [now rewrite IH|].
    destruct (bool_dec false true); [discriminate|exact IH].
Qed.

(** C9: [must] returns, touching nothing, when [errors] is empty;
    otherwise it throws a fresh AggregateError whose [errors] array holds
    the accumulated records, all of them and in their order. *)
Theorem must_throws_the_accumulated_errors (errs : list value) (h : heap) :
  TS.must {| TS.errors := errs |} h
  = match errs with
    | [] => Some (Ret tt, h)
    | _ :: _ =>
        Some (Throw (VObj (S (length h))),
              h ++ [array_object errs; aggregate_error_object (VObj (length h))])
    end /\
  JS.must {| JS.errors := errs |} h
  = match errs with
    | [] => Some (Ret tt, h)
    | _ :: _ =>
        Some (Throw (VObj (S (length h))),
              h ++ [array_object errs; aggregate_error_object (VObj (length h))])
    end.
Proof.
  destruct errs as [|e errs]; [split; reflexivity|].
  split.
  - unfold TS.must, new_AggregateError, alloc_array, alloc, bind, ret, throw.
    cbn. rewrite length_app, Nat.add_1_r, <- app_assoc. reflexivity.
  - unfold JS.must, new_AggregateError, alloc_array, alloc, bind, ret, throw.
    cbn. rewrite length_app, Nat.add_1_r, <- app_assoc. reflexivity.
Qed.

(** ** Configuration errors *)

(** C4: with no checks at all, [check] throws the configuration error in
    both files, and so do [logic.and] and [logic.or] of [check.js];
    [logic.and] and [logic.or] of [check.ts] have no such guard and
    return a check. *)
Theorem empty_check_list (received : value) (h : heap) :
  TS.check received [] h = Some (Throw TS.ErrCheckHasNoChecks, h) /\
  JS.check received [] h = Some (Throw JS.ErrCheckHasNoChecks, h) /\
  JS.and [] h = Some (Throw JS.ErrCheckHasNoChecks, h) /\
  JS.or [] h = Some (Throw JS.ErrCheckHasNoChecks, h) /\
  (exists c, TS.and [] h = Some (Ret c, h ++ [array_object []; function_object 1]) /\
     forall h', f_call c received h' = Some (Ret VUndefined, h')) /\
  (exists c, TS.or [] h = Some (Ret c, h ++ [function_object 1]) /\
     forall h', f_call c received h'
       = Some (Ret (VObj (S (length h'))),
               h' ++ [array_object [];
                      TS.CheckErr_object
                        [(KStr "expected", VObj TS.loc_check);
                         (KStr "received", received);
                         (KStr "errs", VObj (length h'))]])).
Proof.
  repeat split; try reflexivity.
  - eexists. split.
    + unfold TS.and, alloc_array, closure, alloc, bind, ret. cbn.
      rewrite <- app_assoc. reflexivity.
    + intros h'. reflexivity.
  - eexists. split.
    + reflexivity.
    + intros h'. cbn.
      unfold TS.new_CheckErr, alloc_array, alloc, bind, ret. cbn.
      rewrite length_app, Nat.add_1_r, <- app_assoc. reflexivity.
Qed.

(** ** [expect.property] *)

(** C10: on [null] and on [undefined] the check of [property] throws the
    TypeError of the unguarded property read; it returns no record. *)
Theorem property_throws_on_nullish (key : pkey) (expected : value) (h : heap) :
  (exists c, TS.property key expected h = Some (Ret c, h ++ [function_object 1]) /\
     forall h',
       f_call c VNull h'
       = Some (Throw (VObj (length h')), h' ++ [type_error_object]) /\
       f_call c VUndefined h'
       = Some (Throw (VObj (length h')), h' ++ [type_error_object])) /\
  (exists c, JS.property (key_value key) expected h
             = Some (Ret c, h ++ [function_object 1]) /\
     forall h',
       f_call c VNull h'
       = Some (Throw (VObj (length h')), h' ++ [type_error_object]) /\
       f_call c VUndefined h'
       = Some (Throw (VObj (length h')), h' ++ [type_error_object])).
Proof.
  split.
  - eexists. split; [reflexivity|]. intros h'. split; reflexivity.
  - destruct key as [s|y]; (eexists; split; [reflexivity|]);
      intros h'; split; reflexivity.
Qed.

(** ** [expect.any] and [expect.not] *)

Lemma TS_any_loop_spec received expected n :
  TS.any_loop received expected n = negb (n =? 0) && strict_eq received expected.
Proof.
  induction n as [|n IH]; [reflexivity|].
  simpl. destruct (strict_eq received expected); [reflexivity|].
  rewrite IH. now rewrite andb_false_r.
Qed.

Lemma JS_any_loop_spec received expected n :
  JS.any_loop received expected n = negb (n =? 0) && strict_eq received expected.
Proof.
  induction n as [|n IH]; [reflexivity|].
  simpl. destruct (strict_eq received expected); [reflexivity|].
  rewrite IH. now rewrite andb_false_r.
Qed.

Lemma TS_not_loop_spec received expected n :
  TS.not_loop received expected n = negb (n =? 0) && strict_eq received expected.
Proof.
  induction n as [|n IH]; [reflexivity|].
  simpl. destruct (strict_eq received expected); [reflexivity|].
  rewrite IH. now rewrite andb_false_r.
Qed.

Lemma JS_not_loop_spec received expected n :
  JS.not_loop received expected n = negb (n =? 0) && strict_eq received expected.
Proof.
  induction n as [|n IH]; [reflexivity|].
  simpl. destruct (strict_eq received expected); [reflexivity|].
  rewrite IH. now rewrite andb_false_r.
Qed.

(** C1: the check of [any] compares the value with the array of
    candidates, never with a candidate.  It succeeds only on that very
    array (and a non-empty one); on every other value, a listed candidate
    included, it returns a record with [expected] the array and
    [received] the value. *)
Theorem any_compares_with_the_candidate_array
  (expected : list value) (received : value) (h : heap) :
  (exists c,
     TS.any expected h
     = Some (Ret c, h ++ [array_object expected; function_object 1]) /\
     forall h',
       f_call c received h'
       = if negb (length expected =? 0) && strict_eq received (VObj (length h))
         then Some (Ret VUndefined, h')
         else Some (Ret (VObj (length h')),
                    h' ++ [TS.CheckErr_object
                             [(KStr "expected", VObj (length h));
                              (KStr "received", received)]])) /\
  (exists c,
     JS.any expected h
     = Some (Ret c, h ++ [array_object expected; function_object 1]) /\
     forall h',
       f_call c received h'
       = if negb (length expected =? 0) && strict_eq received (VObj (length h))
         then Some (Ret VUndefined, h')
         else Some (Ret (VObj (length h')),
                    h' ++ [JS.CheckErr_object
                             [(KStr "expected", VObj (length h));
                              (KStr "received", received)]])).
Proof.
  split.
  - eexists. split.
    + unfold TS.any, alloc_array, closure, alloc, bind, ret. cbn.
      rewrite <- app_assoc. reflexivity.
    + intros h'. cbn [f_call]. rewrite TS_any_loop_spec.
      destruct (negb (length expected =? 0) && strict_eq received (VObj (length h)));
        reflexivity.
  - eexists. split.
    + unfold JS.any, alloc_array, closure, alloc, bind, ret. cbn.
      rewrite <- app_assoc. reflexivity.
    + intros h'. cbn [f_call]. rewrite JS_any_loop_spec.
      destruct (negb (length expected =? 0) && strict_eq received (VObj (length h)));
        reflexivity.
Qed.

(** C6: the check of [not] compares the value with the array of excluded
    values, never with an excluded value.  It fails only on that very
    array; on every other value, an excluded one included, it
    succeeds. *)
Theorem not_compares_with_the_excluded_array
  (expected : list value) (received : value) (h : heap) :
  (exists c,
     TS.not expected h
     = Some (Ret c, h ++ [array_object expected; function_object 1]) /\
     forall h',
       f_call c received h'
       = if negb (length expected =? 0) && strict_eq received (VObj (length h))
         then Some (Ret (VObj (length h')),
                    h' ++ [TS.CheckErr_object
                             [(KStr "expected", VObj (length h));
                              (KStr "received", received)]])
         else Some (Ret VUndefined, h')) /\
  (exists c,
     JS.not expected h
     = Some (Ret c, h ++ [array_object expected; function_object 1]) /\
     forall h',
       f_call c received h'
       = if negb (length expected =? 0) && strict_eq received (VObj (length h))
         then Some (Ret (VObj (length h')),
                    h' ++ [JS.CheckErr_object
                             [(KStr "expected", VObj (length h));
                              (KStr "received", received)]])
         else Some (Ret VUndefined, h')).
Proof.
  split.
  - eexists. split.
    + unfold TS.not, alloc_array, closure, alloc, bind, ret. cbn.
      rewrite <- app_assoc. reflexivity.
    + intros h'. cbn [f_call]. rewrite TS_not_loop_spec.
      destruct (negb (length expected =? 0) && strict_eq received (VObj (length h)));
        reflexivity.
  - eexists. split.
    + unfold JS.not, alloc_array, closure, alloc, bind, ret. cbn.
      rewrite <- app_assoc. reflexivity.
    + intros h'. cbn [f_call]. rewrite JS_not_loop_spec.
      destruct (negb (length expected =? 0) && strict_eq received (VObj (length h)));
        reflexivity.
Qed.

(** ** [logic.and] *)

Lemma TS_and_loop_spec received checks : forall errs h rets h',
  run_all received checks h = Some (Ret rets, h') ->
  TS.and_loop received checks errs h
  = Some (Ret (errs ++ List.filter is_undefined rets), h').
Proof.
  induction checks as [|c checks IH]; intros errs h rets h' R.
  - simpl in R. injection R as <- <-. simpl. now rewrite app_nil_r.
  - apply run_all_cons in R as (r & h1 & rs & Ec & Ers & ->).
    simpl. rewrite (bind_ret _ _ _ _ _ Ec).
    destruct (is_undefined r); simpl; rewrite (IH _ _ _ _ Ers);
      [now rewrite <- app_assoc|reflexivity].
Qed.

Lemma JS_and_loop_spec received checks : forall errs h rets h',
  run_all received checks h = Some (Ret rets, h') ->
  JS.and_loop received checks errs h
  = Some (Ret (errs ++ List.filter is_undefined rets), h').
Proof.
  induction checks as [|c checks IH]; intros errs h rets h' R.
  - simpl in R. injection R as <- <-. simpl. now rewrite app_nil_r.
  - apply run_all_cons in R as (r & h1 & rs & Ec & Ers & ->).
    simpl. rewrite (bind_ret _ _ _ _ _ Ec).
    destruct (is_undefined r); simpl; rewrite (IH _ _ _ _ Ers);
      [now rewrite <- app_assoc|reflexivity].
Qed.

Lemma is_undefined_true v : is_undefined v = true -> v = VUndefined.
Proof. now destruct v. Qed.

Lemma filter_is_undefined rets :
  List.filter is_undefined rets
  = repeat VUndefined (length (List.filter is_undefined rets)).
Proof.
  induction rets as [|r rets IH]; [reflexivity|].
  simpl. destruct (is_undefined r) eqn:E; [|exact IH].
  apply is_undefined_true in E as ->. simpl. now f_equal.
Qed.

Lemma length_filter_zero (f : value -> bool) l :
  (0 <? length (List.filter f l)) = existsb f l.
Proof.
  induction l as [|x l IH]; [reflexivity|].
  simpl. destruct (f x); [reflexivity|exact IH].
Qed.

(** C2: the check of [and] gathers the returns of the sub-checks that
    succeeded.  It fails exactly when some sub-check succeeds, and its
    aggregate then holds one [undefined] for each succeeding sub-check
    and no failure record at all; when every sub-check fails it
    succeeds. *)
Theorem and_gathers_the_succeeding_checks
  (checks : list func) (received : value) (h0 h : heap)
  (rets : list value) (h' : heap) :
  run_all received checks h = Some (Ret rets, h') ->
  let passed := List.filter is_undefined rets in
  passed = repeat VUndefined (length passed) /\
  (exists c,
     TS.and checks h0
     = Some (Ret c, h0 ++ [array_object (map f_val checks); function_object 1]) /\
     f_call c received h
     = if existsb is_undefined rets
       then Some (Ret (VObj (S (length h'))),
                  h' ++ [array_object passed;
                         TS.CheckErr_object
                           [(KStr "expected", VObj (length h0));
                            (KStr "received", received);
                            (KStr "errs", VObj (length h'))]])
       else Some (Ret VUndefined, h')) /\
  (checks <> [] -> Forall (unary_function h0) checks ->
   exists c,
     JS.and checks h0 = Some (Ret c, h0 ++ [function_object 1]) /\
     f_call c received h
     = if existsb is_undefined rets
       then Some (Ret (VObj (S (length h'))),
                  h' ++ [array_object passed;
                         aggregate_error_object (VObj (length h'))])
       else Some (Ret VUndefined, h')).
Proof.
  intros R passed. split; [apply filter_is_undefined|]. split.
  - eexists. split.
    + unfold TS.and. rewrite (bind_ret _ _ _ _ _ (alloc_array_eq _ _)).
      rewrite closure_eq, <- app_assoc. reflexivity.
    + cbn [f_call].
      rewrite (bind_ret _ _ _ _ _ (TS_and_loop_spec _ _ [] _ _ _ R)).
      cbn [app]. rewrite length_filter_zero.
      destruct (existsb is_undefined rets); [|reflexivity].
      rewrite (bind_ret _ _ _ _ _ (alloc_array_eq _ _)).
      unfold TS.new_CheckErr, alloc, bind, ret.
      rewrite length_snoc, <- app_assoc. reflexivity.
  - intros Hne Hall. eexists. split.
    + unfold JS.and.
      rewrite (bind_ret _ _ _ _ _ (JS_checkChecks_accepts _ _ Hne Hall)).
      reflexivity.
    + cbn [f_call].
      rewrite (bind_ret _ _ _ _ _ (JS_and_loop_spec _ _ [] _ _ _ R)).
      cbn [app]. rewrite length_filter_zero.
      destruct (existsb is_undefined rets); [|reflexivity].
      unfold new_AggregateError.
      rewrite (bind_ret _ _ _ _ _ (alloc_array_eq _ _)).
      unfold alloc, bind, ret.
      rewrite length_snoc, <- app_assoc. reflexivity.
Qed.

(** ** [expect.type] *)

Lemma typeof_function v h h' :
  typeof v h = Some (Ret "function", h') -> exists l, v = VObj l.
Proof.
  destruct v; simpl; unfold ret; try (intros [=]; fail).
  intros _. eauto.
Qed.

(** C5: in [check.ts] the check of [type] succeeds exactly when the
    constructor read off the value is identical to the expected one, and
    otherwise reports the two.  In [check.js] the check compares the
    result of [typeof], a string, with the expected function: it never
    succeeds and reports the two whatever they are. *)
Theorem type_compares_constructors
  (expected received : value) (h h' : heap) (ctor : value) (t : string) :
  get_optional received (KStr "constructor") h' = Some (Ret ctor, h') ->
  typeof expected h = Some (Ret "function", h) ->
  typeof ctor h' = Some (Ret t, h') ->
  (exists c,
     TS.type expected h = Some (Ret c, h ++ [function_object 1]) /\
     f_call c received h'
     = if strict_eq ctor expected then Some (Ret VUndefined, h')
       else Some (Ret (VObj (length h')),
                  h' ++ [TS.CheckErr_object
                           [(KStr "expected", expected); (KStr "received", ctor)]])) /\
  (exists c,
     JS.type expected h = Some (Ret c, h ++ [function_object 1]) /\
     f_call c received h'
     = Some (Ret (VObj (length h')),
             h' ++ [JS.CheckErr_object
                      [(KStr "expected", expected); (KStr "received", ctor)]])).
Proof.
  intros Hc Hf Ht. split.
  - eexists. split; [reflexivity|].
    cbn [f_call]. rewrite (bind_ret _ _ _ _ _ Hc).
    destruct (strict_eq ctor expected); [reflexivity|].
    rewrite (bind_ret _ _ _ _ _ Hc). reflexivity.
  - eexists. split.
    + unfold JS.type. rewrite (bind_ret _ _ _ _ _ Hf). reflexivity.
    + cbn [f_call]. rewrite (bind_ret _ _ _ _ _ Hc).
      rewrite (bind_ret _ _ _ _ _ Ht).
      destruct (typeof_function _ _ _ Hf) as [l ->]. cbn [strict_eq].
      rewrite (bind_ret _ _ _ _ _ Hc). reflexivity.
Qed.

(** ** [expect.forOf] *)

Lemma has_property_primitive k v h :
  is_object v = false ->
  has_property k v h = Some (Throw (VObj (length h)), h ++ [type_error_object]).
Proof. destruct v; simpl; intros [=]; reflexivity. Qed.

(** C7: on a value that is not an object (the number 42, a string,
    [null], ...) the [in] test of the check of [forOf] throws a
    TypeError; nothing is reported through ErrNotIterable. *)
Theorem forOf_throws_on_primitives
  (fuel : nat) (check : func) (received : value) (h : heap) :
  is_object received = false ->
  (exists c,
     TS.forOf fuel check h = Some (Ret c, h ++ [function_object 1]) /\
     forall h',
       f_call c received h'
       = Some (Throw (VObj (length h')), h' ++ [type_error_object])) /\
  (unary_function h check ->
   exists c,
     JS.forOf fuel check h = Some (Ret c, h ++ [function_object 1]) /\
     forall h',
       f_call c received h'
       = Some (Throw (VObj (length h')), h' ++ [type_error_object])).
Proof.
  intros Hprim. split.
  - eexists. split; [apply closure_eq|].
    intros h'. cbn [f_call].
    apply bind_throw, has_property_primitive, Hprim.
  - intros Hc. eexists. split.
    + unfold JS.forOf.
      rewrite (bind_ret _ _ _ _ _ (JS_checkCheck_accepts _ _ Hc)).
      apply closure_eq.
    + intros h'. cbn [f_call].
      apply bind_throw, has_property_primitive, Hprim.
Qed.

(** An object that has no [Symbol.iterator] property is reported as not
    iterable: [check.ts] wraps ErrNotIterable in a record, [check.js]
    returns ErrNotIterable itself. *)
Lemma forOf_reports_objects_without_iterator
  (fuel : nat) (check : func) (received : value) (h h' : heap) :
  has_property (KSym SymIterator) received h' = Some (Ret false, h') ->
  (exists c,
     TS.forOf fuel check h = Some (Ret c, h ++ [function_object 1]) /\
     f_call c received h'
     = Some (Ret (VObj (length h')),
             h' ++ [TS.CheckErr_object
                      [(KStr "expected", f_val check); (KStr "received", received);
                       (KStr "err", TS.ErrNotIterable)]])) /\
  (unary_function h check ->
   exists c,
     JS.forOf fuel check h = Some (Ret c, h ++ [function_object 1]) /\
     f_call c received h' = Some (Ret JS.ErrNotIterable, h')).
Proof.
  intros Hin. split.
  - eexists. split; [apply closure_eq|].
    cbn [f_call]. now rewrite (bind_ret _ _ _ _ _ Hin).
  - intros Hc. eexists. split.
    + unfold JS.forOf.
      rewrite (bind_ret _ _ _ _ _ (JS_checkCheck_accepts _ _ Hc)).
      apply closure_eq.
    + cbn [f_call]. now rewrite (bind_ret _ _ _ _ _ Hin).
Qed.

(** ** [expect.properties] *)

Lemma typeof_fresh_array h elems :
  typeof (VObj (length h)) (h ++ [array_object elems])
  = Some (Ret "object", h ++ [array_object elems]).
Proof.
  unfold typeof, read_object, bind.
  rewrite list_lookup_middle by reflexivity. reflexivity.
Qed.

(** C8: [properties] of [check.js] hands the array of the map's values to
    [checkChecks] as one check; an array is no function, so the factory
    throws ErrExpectedFunction for every map and no check is ever
    produced.  [properties] of [check.ts] returns a check for every
    non-empty map. *)
Theorem properties_construction (object : checkmap) (h : heap) :
  is_nullish (m_val object) = false ->
  let vals := map (fun e => f_val (snd e)) (m_entries object) in
  JS.properties object h
  = Some (Throw JS.ErrExpectedFunction, h ++ [array_object vals]) /\
  (m_entries object <> [] ->
   exists c, TS.properties object h = Some (Ret c, h ++ [function_object 1])).
Proof.
  intros Hobj vals. split.
  - unfold JS.properties, object_values. rewrite Hobj.
    unfold bind at 1. unfold ret at 1.
    rewrite (bind_ret _ _ _ _ _ (alloc_array_eq _ _)).
    apply bind_throw. unfold JS.checkChecks. cbn [length Nat.eqb JS.checkChecks_loop].
    apply bind_throw. unfold JS.checkCheck. cbn [f_val not_callable].
    now rewrite (bind_ret _ _ _ _ _ (typeof_fresh_array _ _)).
  - intros Hne. unfold TS.properties, object_values. rewrite Hobj.
    unfold bind at 1. unfold ret at 1. rewrite length_map.
    destruct (length (m_entries object) =? 0) eqn:E.
    + apply Nat.eqb_eq, length_zero_iff_nil in E. contradiction.
    + rewrite closure_eq. eauto.
Qed.

(** * The statements at sample inputs *)

Import Sample.

Example sample_locations :
  length TS.module_heap = 28 /\ length ts_heap = 35 /\
  f_val ts_value_1 = VObj 28 /\ ts_a_is_2 = VObj 29 /\ ts_map = VObj 30 /\
  ts_empty_array = VObj 31 /\ ts_mixed_array = VObj 32 /\
  ts_empty_object = VObj 33 /\ f_val ts_type_Number = VObj 34 /\
  length JS.module_heap = 30 /\ length js_heap = 35 /\
  f_val js_value_5 = VObj 30 /\ f_val js_value_6 = VObj 31 /\
  js_empty_array = VObj 32 /\ js_empty_object = VObj 33 /\ js_map = VObj 34.
Proof. repeat split; reflexivity. Qed.

(** [check(6, expect.value(5), expect.value(6))]: one record, that of the
    first check. *)
Lemma check_collects_defined_returns_witness :
  let record :=
    JS.CheckErr_object [(KStr "expected", VNum 5); (KStr "received", VNum 6)] in
  TS.check (VNum 6) [js_value_5; js_value_6] js_heap
  = Some (Ret {| TS.errors := [VObj 35] |}, js_heap ++ [record]) /\
  JS.check (VNum 6) [js_value_5; js_value_6] js_heap
  = Some (Ret {| JS.errors := [VObj 35] |}, js_heap ++ [record]).
Proof.
  intros record.
  destruct (check_collects_defined_returns (VNum 6) [js_value_5; js_value_6]
              js_heap ltac:(discriminate)) as (Hts & Hjs & _).
  split.
  - apply Hts. exists [VObj 35; VUndefined]. split; reflexivity.
  - apply Hjs; [repeat constructor|].
    exists [VObj 35; VUndefined]. split; reflexivity.
Defined.

(** [Result.must()] on no error and on two errors. *)
Lemma must_throws_the_accumulated_errors_witness :
  TS.must {| TS.errors := [] |} ts_heap = Some (Ret tt, ts_heap) /\
  JS.must {| JS.errors := [VStr "a"; VStr "b"] |} js_heap
  = Some (Throw (VObj 36),
          js_heap ++ [array_object [VStr "a"; VStr "b"];
                      aggregate_error_object (VObj 35)]).
Proof.
  split.
  - exact (proj1 (must_throws_the_accumulated_errors [] ts_heap)).
  - exact (proj2 (must_throws_the_accumulated_errors [VStr "a"; VStr "b"] js_heap)).
Defined.

(** [expect.any(1)(1)] returns a record. *)
Lemma any_compares_with_the_candidate_array_witness :
  (exists c,
     TS.any [VNum 1] TS.module_heap
     = Some (Ret c, TS.module_heap ++ [array_object [VNum 1]; function_object 1]) /\
     forall h',
       f_call c (VNum 1) h'
       = Some (Ret (VObj (length h')),
               h' ++ [TS.CheckErr_object
                        [(KStr "expected", VObj 28); (KStr "received", VNum 1)]])) /\
  (exists c,
     JS.any [VNum 1] JS.module_heap
     = Some (Ret c, JS.module_heap ++ [array_object [VNum 1]; function_object 1]) /\
     forall h',
       f_call c (VNum 1) h'
       = Some (Ret (VObj (length h')),
               h' ++ [JS.CheckErr_object
                        [(KStr "expected", VObj 30); (KStr "received", VNum 1)]])).
Proof.
  split.
  - exact (proj1 (any_compares_with_the_candidate_array [VNum 1] (VNum 1) TS.module_heap)).
  - exact (proj2 (any_compares_with_the_candidate_array [VNum 1] (VNum 1) JS.module_heap)).
Defined.

(** [expect.not(1)(1)] succeeds. *)
Lemma not_compares_with_the_excluded_array_witness :
  (exists c,
     TS.not [VNum 1] TS.module_heap
     = Some (Ret c, TS.module_heap ++ [array_object [VNum 1]; function_object 1]) /\
     forall h', f_call c (VNum 1) h' = Some (Ret VUndefined, h')) /\
  (exists c,
     JS.not [VNum 1] JS.module_heap
     = Some (Ret c, JS.module_heap ++ [array_object [VNum 1]; function_object 1]) /\
     forall h', f_call c (VNum 1) h' = Some (Ret VUndefined, h')).
Proof.
  split.
  - exact (proj1 (not_compares_with_the_excluded_array [VNum 1] (VNum 1) TS.module_heap)).
  - exact (proj2 (not_compares_with_the_excluded_array [VNum 1] (VNum 1) JS.module_heap)).
Defined.

(** [logic.and(expect.value(5))(5)]: the sub-check succeeds and [and]
    returns an aggregate that holds [undefined]. *)
Lemma and_gathers_the_succeeding_checks_witness :
  let ts_after := js_heap ++ [array_object [VObj 30]; function_object 1] in
  let js_after := js_heap ++ [function_object 1] in
  (exists c,
     TS.and [js_value_5] js_heap = Some (Ret c, ts_after) /\
     f_call c (VNum 5) ts_after
     = Some (Ret (VObj 38),
             ts_after ++ [array_object [VUndefined];
                          TS.CheckErr_object
                            [(KStr "expected", VObj 35); (KStr "received", VNum 5);
                             (KStr "errs", VObj 37)]])) /\
  (exists c,
     JS.and [js_value_5] js_heap = Some (Ret c, js_after) /\
     f_call c (VNum 5) js_after
     = Some (Ret (VObj 37),
             js_after ++ [array_object [VUndefined];
                          aggregate_error_object (VObj 36)])).
Proof.
  intros ts_after js_after. split.
  - exact (proj1 (proj2 (and_gathers_the_succeeding_checks [js_value_5] (VNum 5)
                           js_heap ts_after [VUndefined] ts_after eq_refl))).
  - apply (proj2 (proj2 (and_gathers_the_succeeding_checks [js_value_5] (VNum 5)
                           js_heap js_after [VUndefined] js_after eq_refl)));
      [discriminate|repeat constructor].
Defined.

(** [logic.and(expect.value(5))(6)]: the sub-check fails and [and]
    succeeds. *)
Example and_succeeds_when_the_check_fails :
  exists c h,
    JS.and [js_value_5] js_heap = Some (Ret c, h) /\
    f_call c (VNum 6) h
    = Some (Ret VUndefined,
            h ++ [JS.CheckErr_object
                    [(KStr "expected", VNum 5); (KStr "received", VNum 6)]]).
Proof. do 2 eexists. split; reflexivity. Qed.

(** [expect.type(Array)([])]: succeeds in [check.ts], fails in
    [check.js] with [{expected: Array, received: Array}]. *)
Lemma type_compares_constructors_witness :
  let after := js_heap ++ [function_object 1] in
  (exists c,
     TS.type (VObj loc_Array) js_heap = Some (Ret c, after) /\
     f_call c js_empty_array after = Some (Ret VUndefined, after)) /\
  (exists c,
     JS.type (VObj loc_Array) js_heap = Some (Ret c, after) /\
     f_call c js_empty_array after
     = Some (Ret (VObj 36),
             after ++ [JS.CheckErr_object
                         [(KStr "expected", VObj loc_Array);
                          (KStr "received", VObj loc_Array)]])).
Proof.
  intros after.
  exact (type_compares_constructors (VObj loc_Array) js_empty_array js_heap after
           (VObj loc_Array) "function" eq_refl eq_refl eq_refl).
Defined.

(** [expect.type(Array)({})] fails in [check.ts] with
    [{expected: Array, received: Object}]. *)
Example TS_type_Array_on_object :
  exists c h,
    TS.type (VObj loc_Array) ts_heap = Some (Ret c, h) /\
    f_call c ts_empty_array h = Some (Ret VUndefined, h) /\
    f_call c ts_empty_object h
    = Some (Ret (VObj (length h)),
            h ++ [TS.CheckErr_object
                    [(KStr "expected", VObj loc_Array);
                     (KStr "received", VObj loc_Object)]]).
Proof. do 2 eexists. repeat split; reflexivity. Qed.

(** [expect.forOf(expect.value(5))(42)] throws a TypeError. *)
Lemma forOf_throws_on_primitives_witness :
  (exists c,
     TS.forOf 0 js_value_5 js_heap = Some (Ret c, js_heap ++ [function_object 1]) /\
     forall h',
       f_call c (VNum 42) h'
       = Some (Throw (VObj (length h')), h' ++ [type_error_object])) /\
  (exists c,
     JS.forOf 0 js_value_5 js_heap = Some (Ret c, js_heap ++ [function_object 1]) /\
     forall h',
       f_call c (VNum 42) h'
       = Some (Throw (VObj (length h')), h' ++ [type_error_object])).
Proof.
  destruct (forOf_throws_on_primitives 0 js_value_5 (VNum 42) js_heap eq_refl)
    as (Hts & Hjs).
  split; [exact Hts|].
  apply Hjs. split; reflexivity.
Defined.

(** [expect.properties({a: expect.value(5)})] throws in [check.js]. *)
Lemma properties_construction_witness :
  JS.properties (Checkmap js_map [("a", js_value_5)]) js_heap
  = Some (Throw JS.ErrExpectedFunction, js_heap ++ [array_object [VObj 30]]) /\
  (exists c,
     TS.properties (Checkmap js_map [("a", js_value_5)]) js_heap
     = Some (Ret c, js_heap ++ [function_object 1])).
Proof.
  destruct (properties_construction (Checkmap js_map [("a", js_value_5)]) js_heap
              eq_refl) as (Hjs & Hts).
  split; [exact Hjs|].
  apply Hts. discriminate.
Defined.

(** [expect.properties({a: expect.value(1)})({a: 2})] in [check.ts]: one
    record, whose [errs] holds one record, that of [a]. *)
Example TS_properties_a :
  exists c h h',
    TS.properties (Checkmap ts_map [("a", ts_value_1)]) ts_heap = Some (Ret c, h) /\
    f_call c ts_a_is_2 h = Some (Ret (VObj 38), h') /\
    h' !! 38 = Some (TS.CheckErr_object
                       [(KStr "expected", ts_map); (KStr "received", ts_a_is_2);
                        (KStr "errs", VObj 37)]) /\
    h' !! 37 = Some (array_object [VObj 36]) /\
    h' !! 36 = Some (TS.CheckErr_object
                       [(KStr "expected", VNum 1); (KStr "received", VNum 2);
                        (KStr "property", VStr "a")]).
Proof. do 3 eexists. repeat split; reflexivity. Qed.

(** [expect.forOf(expect.type(Number))([1, 2, "3"])] in [check.ts]: one
    record with one child, at index 2. *)
Example TS_forOf_mixed_array :
  exists c h h',
    TS.forOf 4 ts_type_Number ts_heap = Some (Ret c, h) /\
    f_call c ts_mixed_array h = Some (Ret (VObj 38), h') /\
    h' !! 38 = Some (TS.CheckErr_object
                       [(KStr "expected", f_val ts_type_Number);
                        (KStr "received", ts_mixed_array);
                        (KStr "errs", VObj 37)]) /\
    h' !! 37 = Some (array_object [VObj 36]) /\
    h' !! 36 = Some (TS.CheckErr_object
                       [(KStr "expected", VObj loc_Number);
                        (KStr "received", VObj loc_String);
                        (KStr "index", VNum 2)]).
Proof. do 3 eexists. repeat split; reflexivity. Qed.

(** [expect.forOf(c)({})]: the object has no iterator and is reported
    through ErrNotIterable. *)
Example forOf_on_empty_object :
  exists c h,
    JS.forOf 0 js_value_5 js_heap = Some (Ret c, h) /\
    f_call c js_empty_object h = Some (Ret JS.ErrNotIterable, h).
Proof. do 2 eexists. split; reflexivity. Qed.

(** * Further properties of the two files *)

(** ** [expect.value] *)

Lemma strict_eq_true a b : strict_eq a b = true <-> a = b /\ a <> VNaN.
Proof.
  split.
  - intros H. destruct a, b; simpl in H; try discriminate;
      (split; [|discriminate]); try reflexivity; f_equal.
    + now apply Bool.eqb_prop.
    + now apply Z.eqb_eq.
    + now apply String.eqb_eq.
    + now apply bool_decide_eq_true in H.
    + now apply Nat.eqb_eq.
  - intros [<- Hn]. destruct a; simpl; try reflexivity.
    + apply Bool.eqb_reflx.
    + apply Z.eqb_refl.
    + congruence.
    + apply String.eqb_refl.
    + now apply bool_decide_eq_true.
    + apply Nat.eqb_refl.
Qed.

Lemma strict_eq_decide a b :
  strict_eq a b = bool_decide (a = b /\ a <> VNaN).
Proof.
  destruct (strict_eq a b) eqn:E; symmetry.
  - apply bool_decide_eq_true, strict_eq_true, E.
  - apply bool_decide_eq_false. rewrite <- strict_eq_true. congruence.
Qed.

(** The check of [value] succeeds exactly on the expected value itself,
    unless that is NaN, which nothing equals; on every other value it
    returns the record of the two. *)
Theorem value_accepts_exactly_the_expected
  (expected received : value) (h : heap) :
  (exists c,
     TS.value_ expected h = Some (Ret c, h ++ [function_object 1]) /\
     forall h',
       f_call c received h'
       = if bool_decide (received = expected /\ received <> VNaN)
         then Some (Ret VUndefined, h')
         else Some (Ret (VObj (length h')),
                    h' ++ [TS.CheckErr_object
                             [(KStr "expected", expected);
                              (KStr "received", received)]])) /\
  (exists c,
     JS.value_ expected h = Some (Ret c, h ++ [function_object 1]) /\
     forall h',
       f_call c received h'
       = if bool_decide (received = expected /\ received <> VNaN)
         then Some (Ret VUndefined, h')
         else Some (Ret (VObj (length h')),
                    h' ++ [JS.CheckErr_object
                             [(KStr "expected", expected);
                              (KStr "received", received)]])).
Proof.
  split; (eexists; split; [apply closure_eq|]); intros h'; cbn [f_call];
    rewrite strict_eq_decide; destruct (bool_decide _); reflexivity.
Qed.

(** ** [logic.or] *)

Lemma TS_or_loop_all_fail received checks : forall errs h rets h',
  run_all received checks h = Some (Ret rets, h') ->
  forallb defined rets = true ->
  TS.or_loop received checks errs h = Some (Ret (Some (errs ++ rets)), h').
Proof.
  induction checks as [|c checks IH]; intros errs h rets h' R D.
  - simpl in R. injection R as <- <-. simpl. now rewrite app_nil_r.
  - apply run_all_cons in R as (r & h1 & rs & Ec & Ers & ->).
    simpl in D. apply andb_true_iff in D as [Dr Drs].
    simpl. rewrite (bind_ret _ _ _ _ _ Ec).
    unfold defined in Dr. apply negb_true_iff in Dr. rewrite Dr.
    rewrite (IH _ _ _ _ Ers Drs). now rewrite <- app_assoc.
Qed.

Lemma JS_or_loop_all_fail received checks : forall errs h rets h',
  run_all received checks h = Some (Ret rets, h') ->
  forallb defined rets = true ->
  JS.or_loop received checks errs h = Some (Ret (Some (errs ++ rets)), h').
Proof.
  induction checks as [|c checks IH]; intros errs h rets h' R D.
  - simpl in R. injection R as <- <-. simpl. now rewrite app_nil_r.
  - apply run_all_cons in R as (r & h1 & rs & Ec & Ers & ->).
    simpl in D. apply andb_true_iff in D as [Dr Drs].
    simpl. rewrite (bind_ret _ _ _ _ _ Ec).
    unfold defined in Dr. apply negb_true_iff in Dr. rewrite Dr.
    rewrite (IH _ _ _ _ Ers Drs). now rewrite <- app_assoc.
Qed.

Lemma TS_or_loop_pass received c post h1 h2 pre : forall errs h rets,
  run_all received pre h = Some (Ret rets, h1) ->
  forallb defined rets = true ->
  f_call c received h1 = Some (Ret VUndefined, h2) ->
  TS.or_loop received (pre ++ c :: post) errs h = Some (Ret None, h2).
Proof.
  induction pre as [|p pre IH]; intros errs h rets R D Ec.
  - simpl in R. injection R as <- <-. simpl.
    now rewrite (bind_ret _ _ _ _ _ Ec).
  - apply run_all_cons in R as (r & h' & rs & Ep & Ers & ->).
    simpl in D. apply andb_true_iff in D as [Dr Drs].
    simpl. rewrite (bind_ret _ _ _ _ _ Ep).
    unfold defined in Dr. apply negb_true_iff in Dr. rewrite Dr.
    now apply (IH _ _ rs).
Qed.

Lemma JS_or_loop_pass received c post h1 h2 pre : forall errs h rets,
  run_all received pre h = Some (Ret rets, h1) ->
  forallb defined rets = true ->
  f_call c received h1 = Some (Ret VUndefined, h2) ->
  JS.or_loop received (pre ++ c :: post) errs h = Some (Ret None, h2).
Proof.
  induction pre as [|p pre IH]; intros errs h rets R D Ec.
  - simpl in R. injection R as <- <-. simpl.
    now rewrite (bind_ret _ _ _ _ _ Ec).
  - apply run_all_cons in R as (r & h' & rs & Ep & Ers & ->).
    simpl in D. apply andb_true_iff in D as [Dr Drs].
    simpl. rewrite (bind_ret _ _ _ _ _ Ep).
    unfold defined in Dr. apply negb_true_iff in Dr. rewrite Dr.
    now apply (IH _ _ rs).
Qed.

(** The check of [or] stops at the first sub-check that succeeds: when
    the sub-checks before [c] all report a failure and [c] succeeds, the
    check succeeds in the heap that [c] left, and the sub-checks after
    [c] are never called, whatever they would do. *)
Theorem or_stops_at_the_first_success
  (pre : list func) (c : func) (post : list func) (received : value)
  (h0 h : heap) (rets : list value) (h1 h2 : heap) :
  run_all received pre h = Some (Ret rets, h1) ->
  forallb defined rets = true ->
  f_call c received h1 = Some (Ret VUndefined, h2) ->
  (exists k,
     TS.or (pre ++ c :: post) h0 = Some (Ret k, h0 ++ [function_object 1]) /\
     f_call k received h = Some (Ret VUndefined, h2)) /\
  (Forall (unary_function h0) (pre ++ c :: post) ->
   exists k,
     JS.or (pre ++ c :: post) h0 = Some (Ret k, h0 ++ [function_object 1]) /\
     f_call k received h = Some (Ret VUndefined, h2)).
Proof.
  intros R D Ec. split.
  - eexists. split; [apply closure_eq|]. cbn [f_call].
    now rewrite (bind_ret _ _ _ _ _ (TS_or_loop_pass _ _ post _ _ _ [] _ _ R D Ec)).
  - intros Hall.
    assert (Hne : pre ++ c :: post <> []) by (destruct pre; discriminate).
    eexists. split.
    + unfold JS.or.
      rewrite (bind_ret _ _ _ _ _ (JS_checkChecks_accepts _ _ Hne Hall)).
      apply closure_eq.
    + cbn [f_call].
      now rewrite (bind_ret _ _ _ _ _ (JS_or_loop_pass _ _ post _ _ _ [] _ _ R D Ec)).
Qed.

(** When every sub-check reports a failure the check of [or] returns one
    aggregate of all the records, in the order of the sub-checks: in
    [check.ts] a record whose [expected] is the function [check] of the
    module, in [check.js] an AggregateError. *)
Theorem or_aggregates_every_failure
  (checks : list func) (received : value) (h0 h : heap)
  (rets : list value) (h' : heap) :
  run_all received checks h = Some (Ret rets, h') ->
  forallb defined rets = true ->
  (exists k,
     TS.or checks h0 = Some (Ret k, h0 ++ [function_object 1]) /\
     f_call k received h
     = Some (Ret (VObj (S (length h'))),
             h' ++ [array_object rets;
                    TS.CheckErr_object
                      [(KStr "expected", VObj TS.loc_check);
                       (KStr "received", received);
                       (KStr "errs", VObj (length h'))]])) /\
  (checks <> [] -> Forall (unary_function h0) checks ->
   exists k,
     JS.or checks h0 = Some (Ret k, h0 ++ [function_object 1]) /\
     f_call k received h
     = Some (Ret (VObj (S (length h'))),
             h' ++ [array_object rets; aggregate_error_object (VObj (length h'))])).
Proof.
  intros R D. split.
  - eexists. split; [apply closure_eq|]. cbn [f_call].
    rewrite (bind_ret _ _ _ _ _ (TS_or_loop_all_fail _ _ [] _ _ _ R D)).
    cbn [app]. rewrite (bind_ret _ _ _ _ _ (alloc_array_eq _ _)).
    unfold TS.new_CheckErr, alloc, bind, ret.
    rewrite length_snoc, <- app_assoc. reflexivity.
  - intros Hne Hall. eexists. split.
    + unfold JS.or.
      rewrite (bind_ret _ _ _ _ _ (JS_checkChecks_accepts _ _ Hne Hall)).
      apply closure_eq.
    + cbn [f_call].
      rewrite (bind_ret _ _ _ _ _ (JS_or_loop_all_fail _ _ [] _ _ _ R D)).
      cbn [app]. unfold new_AggregateError.
      rewrite (bind_ret _ _ _ _ _ (alloc_array_eq _ _)).
      unfold alloc, bind, ret.
      rewrite length_snoc, <- app_assoc. reflexivity.
Qed.

(** ** [expect.optional] *)

Lemma TS_optional_loop_spec received options :
  TS.optional_loop received options = existsb (strict_eq received) options.
Proof.
  induction options as [|o options IH]; [reflexivity|].
  simpl. now destruct (strict_eq received o).
Qed.


(** [optional] of [check.ts] asks for at least one option.  Its check
    succeeds when the constructor read off the value is the given one or
    when the value is one of the options, compared one by one; otherwise
    it reports the array of the constructor and the options.  The record
    that the inner [type] check made is dropped. *)
Theorem TS_optional_accepts_type_or_option
  (constructor : value) (options : list value) (received : value)
  (h h' : heap) (ctor : value) :
  options <> [] ->
  get_optional received (KStr "constructor") h' = Some (Ret ctor, h') ->
  TS.optional constructor [] h = Some (Throw TS.ErrNoOptions, h) /\
  exists c,
    TS.optional constructor options h
    = Some (Ret c, h ++ [function_object 1; function_object 1]) /\
    f_call c received h'
    = if strict_eq ctor constructor then Some (Ret VUndefined, h')
      else
        let dropped :=
          TS.CheckErr_object
            [(KStr "expected", constructor); (KStr "received", ctor)] in
        if existsb (strict_eq received) options
        then Some (Ret VUndefined, h' ++ [dropped])
        else Some (Ret (VObj (S (S (length h')))),
                   h' ++ [dropped;
                          array_object (constructor :: options);
                          TS.CheckErr_object
                            [(KStr "expected", VObj (S (length h')));
                             (KStr "received", received)]]).
Proof.
  intros Hne Hc. split; [reflexivity|].
  eexists. split.
  - unfold TS.optional. destruct options as [|o options]; [congruence|].
    cbn [length Nat.eqb]. unfold TS.type.
    rewrite (bind_ret _ _ _ _ _ (closure_eq _ _ _)).
    rewrite closure_eq, <- app_assoc. reflexivity.
  - cbn [f_call]. unfold bind at 1. unfold bind at 1. rewrite Hc.
    destruct (strict_eq ctor constructor); [reflexivity|].
    unfold bind at 1. rewrite Hc.
    unfold TS.new_CheckErr at 1. unfold alloc, bind, ret.
    cbn [is_undefined strict_eq]. rewrite TS_optional_loop_spec.
    destruct (existsb (strict_eq received) options); [reflexivity|].
    unfold TS.new_CheckErr, alloc_array, alloc, bind, ret.
    rewrite !length_snoc, <- !app_assoc. reflexivity.
Qed.


(** ** [Result] *)

(** [isValid] and [must] agree: a Result is valid exactly when it holds
    no error, which is exactly when [must] returns; on a Result that is
    not valid [must] throws. *)
Theorem isValid_iff_must_returns (errs : list value) (h : heap) :
  let ts := {| TS.errors := errs |} in
  let js := {| JS.errors := errs |} in
  (TS.isValid ts = true <-> errs = []) /\
  (TS.isValid ts = true <-> TS.must ts h = Some (Ret tt, h)) /\
  (TS.isValid ts = false <-> exists e h', TS.must ts h = Some (Throw e, h')) /\
  (JS.isValid js = true <-> errs = []) /\
  (JS.isValid js = true <-> JS.must js h = Some (Ret tt, h)) /\
  (JS.isValid js = false <-> exists e h', JS.must js h = Some (Throw e, h')).
Proof.
  destruct errs as [|e errs]; cbn.
  - repeat split; try reflexivity; try discriminate;
      intros (e & h' & [=]).
  - repeat split; try discriminate; eauto.
Qed.

Lemma filter_defined_nil rets :
  (length (List.filter defined rets) =? 0) = forallb is_undefined rets.
Proof.
  induction rets as [|r rets IH]; [reflexivity|].
  simpl. unfold defined at 1. destruct (is_undefined r); simpl; [exact IH|reflexivity].
Qed.

(** The Result of [check] is valid exactly when every check returned
    [undefined]. *)
Theorem check_is_valid_when_every_check_succeeds
  (received : value) (checks : list func) (h : heap) (rets : list value) (h' : heap) :
  checks <> [] ->
  run_all received checks h = Some (Ret rets, h') ->
  (exists r,
     TS.check received checks h = Some (Ret r, h') /\
     TS.isValid r = forallb is_undefined rets) /\
  (Forall (unary_function h) checks ->
   exists r,
     JS.check received checks h = Some (Ret r, h') /\
     JS.isValid r = forallb is_undefined rets).
Proof.
  intros Hne R. split.
  - eexists. split.
    + unfold TS.check. destruct checks as [|c checks]; [congruence|].
      change (length (c :: checks) =? 0) with false. cbv iota.
      unfold bind. rewrite TS_check_loop_eq. unfold bind. rewrite R. reflexivity.
    + apply filter_defined_nil.
  - intros Hall. eexists. split.
    + unfold JS.check.
      rewrite (bind_ret _ _ _ _ _ (JS_checkChecks_accepts _ _ Hne Hall)).
      unfold bind. rewrite JS_check_loop_eq. unfold bind. rewrite R. reflexivity.
    + apply filter_defined_nil.
Qed.

(** ** The argument checks of [check.js] *)

Lemma JS_checkCheck_rejects h c e :
  JS.rejected h c e -> JS.checkCheck c h = Some (Throw e, h).
Proof.
  unfold JS.checkCheck.
  intros [(t & Ht & Hne & ->)|(Ht & len & Hl & Hlen & ->)].
  - rewrite (bind_ret _ _ _ _ _ Ht).
    apply String.eqb_neq in Hne. now rewrite Hne.
  - rewrite (bind_ret _ _ _ _ _ Ht). cbn [String.eqb Ascii.eqb Bool.eqb negb].
    rewrite (bind_ret _ _ _ _ _ Hl). now rewrite Hlen.
Qed.

Lemma JS_checkChecks_rejects h pre c post e :
  Forall (unary_function h) pre -> JS.rejected h c e ->
  JS.checkChecks (pre ++ c :: post) h = Some (Throw e, h).
Proof.
  intros Hpre Hc. unfold JS.checkChecks.
  replace (length (pre ++ c :: post) =? 0) with false
    by (now destruct pre).
  induction Hpre as [|p pre Hp _ IH]; simpl.
  - apply bind_throw, JS_checkCheck_rejects, Hc.
  - now rewrite (bind_ret _ _ _ _ _ (JS_checkCheck_accepts _ _ Hp)).
Qed.

(** [check], [logic.and] and [logic.or] of [check.js] look at all their
    checks before they call any: the first argument that is no function,
    or a function that does not take one argument, makes them throw the
    error of that argument, and the heap is as it was, so no check has
    run. *)
Theorem JS_rejects_before_running
  (pre : list func) (c : func) (post : list func) (e received : value) (h : heap) :
  Forall (unary_function h) pre ->
  JS.rejected h c e ->
  JS.check received (pre ++ c :: post) h = Some (Throw e, h) /\
  JS.and (pre ++ c :: post) h = Some (Throw e, h) /\
  JS.or (pre ++ c :: post) h = Some (Throw e, h).
Proof.
  intros Hpre Hc.
  pose proof (JS_checkChecks_rejects _ _ _ post _ Hpre Hc) as E.
  repeat split; apply bind_throw, E.
Qed.

Lemma bind_inv {A B} (m : M A) (k : A -> M B) h b h' :
  bind m k h = Some (Ret b, h') ->
  exists a h1, m h = Some (Ret a, h1) /\ k a h1 = Some (Ret b, h').
Proof.
  unfold bind. destruct (m h) as [[[a|e] h1]|]; try discriminate. eauto.
Qed.

Lemma closure_inv len body h c h' :
  closure len body h = Some (Ret c, h') ->
  h' = h ++ [function_object len] /\ f_val c = VObj (length h).
Proof. rewrite closure_eq. now intros [= <- <-]. Qed.

Lemma throw_inv {A} (e : value) h (a : A) h' : throw e h = Some (Ret a, h') -> False.
Proof. discriminate. Qed.

Ltac invert_factory H :=
  repeat
    (first
       [ apply closure_inv in H
       | apply throw_inv in H; contradiction
       | let a := fresh "a" in
         let h1 := fresh "h1" in
         let E := fresh "E" in
         apply bind_inv in H as (a & h1 & E & H)
       | match type of H with
         | (if ?b then _ else _) _ = _ => destruct b
         end ]).

Lemma JS_factory_makes_function m h c h' :
  JS.factory m -> m h = Some (Ret c, h') ->
  exists h0, h' = h0 ++ [function_object 1] /\ f_val c = VObj (length h0).
Proof.
  intros [] H;
    [ unfold JS.any in H | unfold JS.value_ in H | unfold JS.not in H
    | unfold JS.type in H | unfold JS.optional in H | unfold JS.instanceof in H
    | unfold JS.property in H | unfold JS.properties in H
    | unfold JS.forOf in H | unfold JS.and in H | unfold JS.or in H ];
    invert_factory H; eauto.
Qed.

Lemma function_object_is_unary h0 h2 c :
  f_val c = VObj (length h0) ->
  unary_function ((h0 ++ [function_object 1]) ++ h2) c.
Proof.
  intros E. unfold unary_function. rewrite E.
  unfold typeof, get, get_object, find_property, read_object, bind, ret.
  rewrite <- app_assoc. cbn [app].
  rewrite length_app. cbn [length]. rewrite Nat.add_succ_r. cbn [lookup_chain].
  rewrite !list_lookup_middle by reflexivity. split; reflexivity.
Qed.

(** Every check that a factory of [check.js] returned is accepted as an
    argument later on: in a heap that extends the ones the checks were
    made in, [checkChecks] accepts any non-empty list of them, so that
    [check], [logic.and] and [logic.or] do not turn them down. *)
Theorem JS_factories_make_accepted_checks (checks : list func) (h : heap) :
  checks <> [] ->
  Forall (fun c => exists m h0 h1 h2,
            JS.factory m /\ m h0 = Some (Ret c, h1) /\ h = h1 ++ h2) checks ->
  JS.checkChecks checks h = Some (Ret tt, h) /\
  exists k, JS.and checks h = Some (Ret k, h ++ [function_object 1]).
Proof.
  intros Hne Hall.
  assert (Hu : Forall (unary_function h) checks).
  { eapply Forall_impl; [exact Hall|]. cbn beta.
    intros c (m & h0 & h1 & h2 & Hm & E & ->).
    destruct (JS_factory_makes_function _ _ _ _ Hm E) as (h0' & -> & Hc).
    now apply function_object_is_unary. }
  pose proof (JS_checkChecks_accepts _ _ Hne Hu) as E.
  split; [exact E|].
  eexists. unfold JS.and. rewrite (bind_ret _ _ _ _ _ E). apply closure_eq.
Qed.


(** ** [expect.instanceof] *)


(** ** Failure records *)


















(** ** [expect.properties] of [check.ts] *)

Lemma TS_properties_made object h :
  is_nullish (m_val object) = false -> m_entries object <> [] ->
  exists body,
    TS.properties object h
    = Some (Ret (Func (VObj (length h)) body), h ++ [function_object 1]) /\
    body = (fun received =>
      bind (TS.properties_loop received (m_entries object) [])
        (fun errs =>
           if 0 <? length errs
           then bind (alloc_array errs) (fun arr =>
                  TS.new_CheckErr [(KStr "expected", m_val object);
                                   (KStr "received", received); (KStr "errs", arr)])
           else ret VUndefined)).
Proof.
  intros Hobj Hne. eexists. split; [|reflexivity].
  unfold TS.properties, object_values. rewrite Hobj.
  unfold bind at 1. unfold ret at 1. rewrite length_map.
  destruct (length (m_entries object) =? 0) eqn:E.
  - apply Nat.eqb_eq, length_zero_iff_nil in E. contradiction.
  - apply closure_eq.
Qed.

(** [properties] of [check.ts] throws a TypeError on a map that is
    [null] or [undefined] and ErrCheckHasNoChecks on a map without
    entries.  The check it returns otherwise throws a TypeError on a
    candidate that is [null] or [undefined], at the read of the first
    field and before a sub-check is called. *)
Theorem TS_properties_edges (object : checkmap) (h : heap) :
  (is_nullish (m_val object) = true ->
   TS.properties object h
   = Some (Throw (VObj (length h)), h ++ [type_error_object])) /\
  (is_nullish (m_val object) = false -> m_entries object = [] ->
   TS.properties object h = Some (Throw TS.ErrCheckHasNoChecks, h)) /\
  (is_nullish (m_val object) = false -> m_entries object <> [] ->
   exists c,
     TS.properties object h = Some (Ret c, h ++ [function_object 1]) /\
     forall received h',
       is_nullish received = true ->
       f_call c received h'
       = Some (Throw (VObj (length h')), h' ++ [type_error_object])).
Proof.
  split; [|split].
  - intros Hobj. unfold TS.properties, object_values. now rewrite Hobj.
  - intros Hobj He. unfold TS.properties, object_values. now rewrite Hobj, He.
  - intros Hobj Hne.
    destruct (TS_properties_made object h Hobj Hne) as (body & E & ->).
    eexists. split; [exact E|]. intros received h' Hr. cbn [f_call].
    apply bind_throw.
    destruct (m_entries object) as [|[key c] es]; [congruence|].
    cbn [TS.properties_loop]. apply bind_throw.
    now destruct received.
Qed.

Lemma TS_properties_loop_pass received entries : forall errs h rets h',
  run_fields received entries h = Some (Ret rets, h') ->
  forallb is_undefined rets = true ->
  TS.properties_loop received entries errs h = Some (Ret errs, h').
Proof.
  induction entries as [|[key c] entries IH]; intros errs h rets h' R D.
  - simpl in R. now injection R as <- <-.
  - cbn [run_fields] in R.
    apply bind_inv in R as (x & ha & Ex & R).
    apply bind_inv in R as (r & hb & Er & R).
    apply bind_inv in R as (rs & hc & Ers & R).
    injection R as <- <-. cbn [forallb] in D.
    apply andb_true_iff in D as [Dr Drs].
    cbn [TS.properties_loop].
    rewrite (bind_ret _ _ _ _ _ Ex), (bind_ret _ _ _ _ _ Er), Dr.
    now apply (IH _ _ rs).
Qed.

Lemma TS_properties_loop_grows received entries : forall errs h errs' h',
  TS.properties_loop received entries errs h = Some (Ret errs', h') ->
  length errs <= length errs' /\
  (length errs' = length errs ->
   exists rets,
     run_fields received entries h = Some (Ret rets, h') /\
     forallb is_undefined rets = true).
Proof.
  induction entries as [|[key c] entries IH]; intros errs h errs' h' L.
  - simpl in L. injection L as <- <-. split; [lia|]. intros _. now exists [].
  - cbn [TS.properties_loop] in L.
    apply bind_inv in L as (x & ha & Ex & L).
    apply bind_inv in L as (r & hb & Er & L).
    destruct (is_undefined r) eqn:Dr.
    + destruct (IH _ _ _ _ L) as [Hle Hrun]. split; [exact Hle|].
      intros Hlen. destruct (Hrun Hlen) as (rs & Ers & Drs).
      exists (r :: rs). split.
      * cbn [run_fields].
        rewrite (bind_ret _ _ _ _ _ Ex), (bind_ret _ _ _ _ _ Er).
        now rewrite (bind_ret _ _ _ _ _ Ers).
      * cbn [forallb]. now rewrite Dr.
    + apply bind_inv in L as ([] & hc & Es & L).
      destruct (IH _ _ _ _ L) as [Hle _]. rewrite length_snoc in Hle.
      split; lia.
Qed.

(** The check of [properties] of [check.ts] succeeds exactly when every
    sub-check of the map, called in the order of the keys on the field of
    its key, returns [undefined]; every one of them is then called. *)
Theorem TS_properties_succeeds_iff_every_field_passes
  (object : checkmap) (h : heap) :
  is_nullish (m_val object) = false ->
  m_entries object <> [] ->
  exists c,
    TS.properties object h = Some (Ret c, h ++ [function_object 1]) /\
    forall received h1 h',
      f_call c received h1 = Some (Ret VUndefined, h') <->
      exists rets,
        run_fields received (m_entries object) h1 = Some (Ret rets, h') /\
        forallb is_undefined rets = true.
Proof.
  intros Hobj Hne.
  destruct (TS_properties_made object h Hobj Hne) as (body & E & ->).
  eexists. split; [exact E|]. intros received h1 h'. cbn [f_call]. split.
  - intros H. apply bind_inv in H as (errs & ha & L & H).
    destruct (TS_properties_loop_grows _ _ _ _ _ _ L) as [_ Hrun].
    destruct errs as [|e errs].
    + injection H as <-. now apply Hrun.
    + cbn [length Nat.ltb Nat.leb] in H.
      apply bind_inv in H as (arr & hb & _ & H). discriminate.
  - intros (rets & R & D).
    now rewrite (bind_ret _ _ _ _ _ (TS_properties_loop_pass _ _ [] _ _ _ R D)).
Qed.

(** ** [expect.forOf] on arrays *)

Lemma TS_array_walk_pass check h arr o elems :
  h !! arr = Some o -> o_payload o = PArray elems ->
  (forall v, In v elems -> f_call check v h = Some (Ret VUndefined, h)) ->
  forall fuel i n errs,
    length elems - i < fuel ->
    exists n',
      array_walk fuel arr i (TS.forOf_body check) (n, errs) h
      = Some (Ret (n', errs), h).
Proof.
  intros Hl Ho Hpass.
  induction fuel as [|fuel IH]; intros i n errs Hfuel; [lia|].
  cbn [array_walk]. unfold read_object, bind at 1. rewrite Hl, Ho.
  destruct (elems !! i) as [v|] eqn:Ei.
  - assert (Hin : In v elems)
      by (apply list_elem_of_In, list_elem_of_lookup; eauto).
    unfold TS.forOf_body at 1. unfold bind at 1. unfold bind at 1.
    rewrite (Hpass v Hin). cbn [is_undefined strict_eq negb ret fst snd].
    apply lookup_lt_Some in Ei. apply IH. lia.
  - now eexists.
Qed.

Lemma JS_array_walk_pass check h arr o elems :
  h !! arr = Some o -> o_payload o = PArray elems ->
  (forall v, In v elems -> f_call check v h = Some (Ret VUndefined, h)) ->
  forall fuel i n errs,
    length elems - i < fuel ->
    exists n',
      array_walk fuel arr i (JS.forOf_body check) (n, errs) h
      = Some (Ret (n', errs), h).
Proof.
  intros Hl Ho Hpass.
  induction fuel as [|fuel IH]; intros i n errs Hfuel; [lia|].
  cbn [array_walk]. unfold read_object, bind at 1. rewrite Hl, Ho.
  destruct (elems !! i) as [v|] eqn:Ei.
  - assert (Hin : In v elems)
      by (apply list_elem_of_In, list_elem_of_lookup; eauto).
    unfold JS.forOf_body at 1. unfold bind at 1. unfold bind at 1.
    rewrite (Hpass v Hin). cbn [is_undefined strict_eq negb ret fst snd].
    apply lookup_lt_Some in Ei. apply IH. lia.
  - now eexists.
Qed.

Lemma for_of_builtin_array {St} fuel h arr elems (body : value -> St -> M St) s :
  builtin_array h arr elems ->
  for_of fuel (VObj arr) body s h = array_walk fuel arr 0 body s h.
Proof.
  intros (_ & _ & Hget & Hty). unfold for_of.
  rewrite (bind_ret _ _ _ _ _ Hget), (bind_ret _ _ _ _ _ Hty).
  cbn [String.eqb Ascii.eqb Bool.eqb negb strict_eq].
  now rewrite Nat.eqb_refl.
Qed.

(** On an array that iterates with the built-in iterator, the check of
    [forOf] succeeds and leaves the heap as it was when the element check
    succeeds, leaving the heap as it was, on every element; the empty
    array passes whatever the element check.  More steps than the array
    has elements are enough for the loop to end. *)
Theorem forOf_accepts_arrays_whose_elements_pass
  (fuel : nat) (check : func) (h0 h : heap) (arr : loc) (elems : list value) :
  builtin_array h arr elems ->
  (forall v, In v elems -> f_call check v h = Some (Ret VUndefined, h)) ->
  length elems < fuel ->
  (exists c,
     TS.forOf fuel check h0 = Some (Ret c, h0 ++ [function_object 1]) /\
     f_call c (VObj arr) h = Some (Ret VUndefined, h)) /\
  (unary_function h0 check ->
   exists c,
     JS.forOf fuel check h0 = Some (Ret c, h0 ++ [function_object 1]) /\
     f_call c (VObj arr) h = Some (Ret VUndefined, h)).
Proof.
  intros Harr Hpass Hfuel.
  pose proof Harr as ((o & Hl & Ho) & Hin & _). split.
  - eexists. split; [apply closure_eq|]. cbn [f_call].
    rewrite (bind_ret _ _ _ _ _ Hin). cbn [negb].
    destruct (TS_array_walk_pass check h arr o elems Hl Ho Hpass fuel 0 0 []
                ltac:(lia)) as (n' & W).
    rewrite <- (for_of_builtin_array _ _ _ _ _ _ Harr) in W.
    now rewrite (bind_ret _ _ _ _ _ W).
  - intros Hc. eexists. split.
    + unfold JS.forOf.
      rewrite (bind_ret _ _ _ _ _ (JS_checkCheck_accepts _ _ Hc)).
      apply closure_eq.
    + cbn [f_call]. rewrite (bind_ret _ _ _ _ _ Hin). cbn [negb].
      destruct (JS_array_walk_pass check h arr o elems Hl Ho Hpass fuel 0 0 []
                  ltac:(lia)) as (n' & W).
      rewrite <- (for_of_builtin_array _ _ _ _ _ _ Harr) in W.
      now rewrite (bind_ret _ _ _ _ _ W).
Qed.

(** ** Exceptions of the checks *)

Lemma TS_check_loop_throws received c post e h1 h2 pre : forall errs h rets,
  run_all received pre h = Some (Ret rets, h1) ->
  f_call c received h1 = Some (Throw e, h2) ->
  TS.check_loop received (pre ++ c :: post) errs h = Some (Throw e, h2).
Proof.
  induction pre as [|p pre IH]; intros errs h rets R Ec.
  - simpl in R. injection R as <- <-. simpl. now apply bind_throw.
  - apply run_all_cons in R as (r & h' & rs & Ep & Ers & ->).
    simpl. rewrite (bind_ret _ _ _ _ _ Ep). now apply (IH _ _ rs).
Qed.

Lemma JS_check_loop_throws received c post e h1 h2 pre : forall errs h rets,
  run_all received pre h = Some (Ret rets, h1) ->
  f_call c received h1 = Some (Throw e, h2) ->
  JS.check_loop received (pre ++ c :: post) errs h = Some (Throw e, h2).
Proof.
  induction pre as [|p pre IH]; intros errs h rets R Ec.
  - simpl in R. injection R as <- <-. simpl. now apply bind_throw.
  - apply run_all_cons in R as (r & h' & rs & Ep & Ers & ->).
    simpl. rewrite (bind_ret _ _ _ _ _ Ep). now apply (IH _ _ rs).
Qed.

(** [check] catches nothing: when a check throws, [check] throws the
    same value from the heap that check left, the records gathered so far
    are lost and the checks after it are not called. *)
Theorem check_propagates_the_first_exception
  (pre : list func) (c : func) (post : list func) (received e : value)
  (h : heap) (rets : list value) (h1 h2 : heap) :
  run_all received pre h = Some (Ret rets, h1) ->
  f_call c received h1 = Some (Throw e, h2) ->
  TS.check received (pre ++ c :: post) h = Some (Throw e, h2) /\
  (Forall (unary_function h) (pre ++ c :: post) ->
   JS.check received (pre ++ c :: post) h = Some (Throw e, h2)).
Proof.
  intros R Ec.
  assert (Hne : pre ++ c :: post <> []) by (destruct pre; discriminate).
  split.
  - unfold TS.check.
    replace (length (pre ++ c :: post) =? 0) with false by (now destruct pre).
    apply bind_throw. exact (TS_check_loop_throws _ _ post _ _ _ _ [] _ _ R Ec).
  - intros Hall. unfold JS.check.
    rewrite (bind_ret _ _ _ _ _ (JS_checkChecks_accepts _ _ Hne Hall)).
    apply bind_throw. exact (JS_check_loop_throws _ _ post _ _ _ _ [] _ _ R Ec).
Qed.

(** * The further properties at sample inputs *)

Import MoreSamples.

Example more_sample_locations :
  length ts_heap2 = 37 /\ ts_ones_array = VObj 35 /\ ts_number_map = VObj 36 /\
  length js_heap2 = 36 /\ f_val js_property_a = VObj 35.
Proof. repeat split; reflexivity. Qed.

(** [expect.value(NaN)(NaN)] returns a record; [expect.value(5)(5)]
    succeeds. *)
Lemma value_accepts_exactly_the_expected_witness :
  (exists c,
     TS.value_ VNaN ts_heap = Some (Ret c, ts_heap ++ [function_object 1]) /\
     forall h',
       f_call c VNaN h'
       = Some (Ret (VObj (length h')),
               h' ++ [TS.CheckErr_object
                        [(KStr "expected", VNaN); (KStr "received", VNaN)]])) /\
  (exists c,
     JS.value_ (VNum 5) js_heap = Some (Ret c, js_heap ++ [function_object 1]) /\
     forall h', f_call c (VNum 5) h' = Some (Ret VUndefined, h')).
Proof.
  split.
  - exact (proj1 (value_accepts_exactly_the_expected VNaN VNaN ts_heap)).
  - exact (proj2 (value_accepts_exactly_the_expected (VNum 5) (VNum 5) js_heap)).
Defined.

(** [logic.or(expect.value(5), expect.value(6), x)(6)]: the second check
    succeeds and [x], which is no function in the run of [check.ts], is
    never called. *)
Lemma or_stops_at_the_first_success_witness :
  let after := js_heap ++ [function_object 1] in
  let record :=
    JS.CheckErr_object [(KStr "expected", VNum 5); (KStr "received", VNum 6)] in
  (exists k,
     TS.or [js_value_5; js_value_6; not_callable VNull] js_heap = Some (Ret k, after) /\
     f_call k (VNum 6) after = Some (Ret VUndefined, after ++ [record])) /\
  (exists k,
     JS.or [js_value_5; js_value_6; js_value_5] js_heap = Some (Ret k, after) /\
     f_call k (VNum 6) after = Some (Ret VUndefined, after ++ [record])).
Proof.
  intros after record. split.
  - exact (proj1 (or_stops_at_the_first_success [js_value_5] js_value_6
                    [not_callable VNull] (VNum 6) js_heap after [VObj 36]
                    (after ++ [record]) (after ++ [record])
                    eq_refl eq_refl eq_refl)).
  - apply (proj2 (or_stops_at_the_first_success [js_value_5] js_value_6
                    [js_value_5] (VNum 6) js_heap after [VObj 36]
                    (after ++ [record]) (after ++ [record])
                    eq_refl eq_refl eq_refl)).
    repeat constructor.
Defined.

(** [logic.or(expect.value(5), expect.value(6))(7)]: both fail. *)
Lemma or_aggregates_every_failure_witness :
  let after := js_heap ++ [function_object 1] in
  let records :=
    [JS.CheckErr_object [(KStr "expected", VNum 5); (KStr "received", VNum 7)];
     JS.CheckErr_object [(KStr "expected", VNum 6); (KStr "received", VNum 7)]] in
  (exists k,
     TS.or [js_value_5; js_value_6] js_heap = Some (Ret k, after) /\
     f_call k (VNum 7) after
     = Some (Ret (VObj 39),
             (after ++ records) ++
             [array_object [VObj 36; VObj 37];
              TS.CheckErr_object
                [(KStr "expected", VObj TS.loc_check); (KStr "received", VNum 7);
                 (KStr "errs", VObj 38)]])) /\
  (exists k,
     JS.or [js_value_5; js_value_6] js_heap = Some (Ret k, after) /\
     f_call k (VNum 7) after
     = Some (Ret (VObj 39),
             (after ++ records) ++
             [array_object [VObj 36; VObj 37]; aggregate_error_object (VObj 38)])).
Proof.
  intros after records.
  destruct (or_aggregates_every_failure [js_value_5; js_value_6] (VNum 7)
              js_heap after [VObj 36; VObj 37] (after ++ records)
              eq_refl eq_refl) as (Hts & Hjs).
  split; [exact Hts|].
  apply Hjs; [discriminate|repeat constructor].
Defined.

(** [expect.optional(Number, null)(null)] in [check.ts]: accepted as an
    option. *)
Lemma TS_optional_accepts_type_or_option_witness :
  let after := ts_heap ++ [function_object 1; function_object 1] in
  TS.optional (VObj loc_Number) [] ts_heap = Some (Throw TS.ErrNoOptions, ts_heap) /\
  exists c,
    TS.optional (VObj loc_Number) [VNull] ts_heap = Some (Ret c, after) /\
    f_call c VNull after
    = Some (Ret VUndefined,
            after ++ [TS.CheckErr_object
                        [(KStr "expected", VObj loc_Number);
                         (KStr "received", VUndefined)]]).
Proof.
  intros after.
  exact (TS_optional_accepts_type_or_option (VObj loc_Number) [VNull] VNull
           ts_heap after VUndefined ltac:(discriminate) eq_refl).
Defined.


(** A Result without errors and one with an error. *)
Lemma isValid_iff_must_returns_witness :
  TS.must {| TS.errors := [] |} ts_heap = Some (Ret tt, ts_heap) /\
  exists e h', JS.must {| JS.errors := [VStr "a"] |} js_heap = Some (Throw e, h').
Proof.
  split.
  - apply (proj1 (proj2 (isValid_iff_must_returns [] ts_heap))). reflexivity.
  - apply (proj2 (proj2 (proj2 (proj2 (proj2
             (isValid_iff_must_returns [VStr "a"] js_heap)))))).
    reflexivity.
Defined.

(** [check(6, expect.value(5), expect.value(6)).isValid()] is false. *)
Lemma check_is_valid_when_every_check_succeeds_witness :
  let record :=
    JS.CheckErr_object [(KStr "expected", VNum 5); (KStr "received", VNum 6)] in
  (exists r,
     TS.check (VNum 6) [js_value_5; js_value_6] js_heap
     = Some (Ret r, js_heap ++ [record]) /\ TS.isValid r = false) /\
  (exists r,
     JS.check (VNum 6) [js_value_5; js_value_6] js_heap
     = Some (Ret r, js_heap ++ [record]) /\ JS.isValid r = false).
Proof.
  intros record.
  destruct (check_is_valid_when_every_check_succeeds (VNum 6)
              [js_value_5; js_value_6] js_heap [VObj 35; VUndefined]
              (js_heap ++ [record]) ltac:(discriminate) eq_refl) as (Hts & Hjs).
  split; [exact Hts|].
  apply Hjs. repeat constructor.
Defined.

(** [check(1, expect.value(5), 3)] and
    [logic.and(expect.value(5), AggregateError)] in [check.js]. *)
Lemma JS_rejects_before_running_witness :
  JS.check (VNum 1) [js_value_5; not_callable (VNum 3)] js_heap
  = Some (Throw JS.ErrExpectedFunction, js_heap) /\
  JS.and [js_value_5; not_callable (VObj loc_AggregateError); js_value_6] js_heap
  = Some (Throw JS.ErrExpectedOneArgument, js_heap).
Proof.
  split.
  - apply (JS_rejects_before_running [js_value_5] (not_callable (VNum 3)) []
             JS.ErrExpectedFunction (VNum 1) js_heap).
    + repeat constructor.
    + left. exists "number". repeat split. discriminate.
  - apply (JS_rejects_before_running [js_value_5]
             (not_callable (VObj loc_AggregateError)) [js_value_6]
             JS.ErrExpectedOneArgument (VNum 1) js_heap).
    + repeat constructor.
    + right. split; [reflexivity|]. exists (VNum 2). repeat split.
Defined.

(** [expect.value(5)] and [expect.value(6)], made while the heap grew to
    [js_heap], are accepted there. *)
Lemma JS_factories_make_accepted_checks_witness :
  JS.checkChecks [js_value_5; js_value_6] js_heap = Some (Ret tt, js_heap) /\
  exists k,
    JS.and [js_value_5; js_value_6] js_heap
    = Some (Ret k, js_heap ++ [function_object 1]).
Proof.
  apply (JS_factories_make_accepted_checks [js_value_5; js_value_6] js_heap);
    [discriminate|].
  repeat constructor.
  - exists (JS.value_ (VNum 5)), JS.module_heap,
      (JS.module_heap ++ [function_object 1]), (drop 31 js_heap).
    repeat split. constructor.
  - exists (JS.value_ (VNum 6)), (JS.module_heap ++ [function_object 1]),
      (JS.module_heap ++ [function_object 1; function_object 1]), (drop 32 js_heap).
    repeat split. constructor.
Defined.





(** [expect.properties(null)], [expect.properties({})] and
    [expect.properties({a: expect.value(1)})(null)] in [check.ts]. *)
Lemma TS_properties_edges_witness :
  TS.properties (Checkmap VNull []) ts_heap
  = Some (Throw (VObj 35), ts_heap ++ [type_error_object]) /\
  TS.properties (Checkmap ts_empty_object []) ts_heap
  = Some (Throw TS.ErrCheckHasNoChecks, ts_heap) /\
  exists c,
    TS.properties (Checkmap ts_map [("a", ts_value_1)]) ts_heap
    = Some (Ret c, ts_heap ++ [function_object 1]) /\
    f_call c VNull (ts_heap ++ [function_object 1])
    = Some (Throw (VObj 36), (ts_heap ++ [function_object 1]) ++ [type_error_object]).
Proof.
  split; [|split].
  - exact (proj1 (TS_properties_edges (Checkmap VNull []) ts_heap) eq_refl).
  - exact (proj1 (proj2 (TS_properties_edges (Checkmap ts_empty_object []) ts_heap))
             eq_refl eq_refl).
  - destruct (proj2 (proj2 (TS_properties_edges
                              (Checkmap ts_map [("a", ts_value_1)]) ts_heap))
                eq_refl ltac:(discriminate)) as (c & E & Hc).
    exists c. split; [exact E|].
    exact (Hc VNull (ts_heap ++ [function_object 1]) eq_refl).
Defined.

(** [expect.properties({a: expect.type(Number)})({a: 2})] in [check.ts]
    succeeds. *)
Lemma TS_properties_succeeds_iff_every_field_passes_witness :
  let after := ts_heap2 ++ [function_object 1] in
  exists c,
    TS.properties (Checkmap ts_number_map [("a", ts_type_Number)]) ts_heap2
    = Some (Ret c, after) /\
    f_call c ts_a_is_2 after = Some (Ret VUndefined, after).
Proof.
  intros after.
  destruct (TS_properties_succeeds_iff_every_field_passes
              (Checkmap ts_number_map [("a", ts_type_Number)]) ts_heap2
              eq_refl ltac:(discriminate)) as (c & E & Hiff).
  exists c. split; [exact E|].
  apply Hiff. exists [VUndefined]. split; reflexivity.
Defined.

(** [expect.forOf(expect.value(1))([1, 1])] succeeds. *)
Lemma forOf_accepts_arrays_whose_elements_pass_witness :
  let after := ts_heap2 ++ [function_object 1] in
  (exists c,
     TS.forOf 3 ts_value_1 ts_heap2 = Some (Ret c, after) /\
     f_call c ts_ones_array after = Some (Ret VUndefined, after)) /\
  (exists c,
     JS.forOf 3 ts_value_1 ts_heap2 = Some (Ret c, after) /\
     f_call c ts_ones_array after = Some (Ret VUndefined, after)).
Proof.
  intros after.
  assert (Harr : builtin_array after 35 [VNum 1; VNum 1]).
  { split; [|repeat split]. eexists. split; reflexivity. }
  assert (Hpass : forall v, In v [VNum 1; VNum 1] ->
                            f_call ts_value_1 v after = Some (Ret VUndefined, after)).
  { intros v [<-|[<-|[]]]; reflexivity. }
  destruct (forOf_accepts_arrays_whose_elements_pass 3 ts_value_1 ts_heap2 after
              35 [VNum 1; VNum 1] Harr Hpass ltac:(simpl; lia)) as (Hts & Hjs).
  split; [exact Hts|].
  apply Hjs. split; reflexivity.
Defined.

(** [expect.forOf(expect.value(5))({})]: reported as not iterable. *)
Lemma forOf_reports_objects_without_iterator_witness :
  let after := js_heap ++ [function_object 1] in
  (exists c,
     TS.forOf 0 js_value_5 js_heap = Some (Ret c, after) /\
     f_call c js_empty_object after
     = Some (Ret (VObj 36),
             after ++ [TS.CheckErr_object
                         [(KStr "expected", VObj 30);
                          (KStr "received", js_empty_object);
                          (KStr "err", TS.ErrNotIterable)]])) /\
  (exists c,
     JS.forOf 0 js_value_5 js_heap = Some (Ret c, after) /\
     f_call c js_empty_object after = Some (Ret JS.ErrNotIterable, after)).
Proof.
  intros after.
  destruct (forOf_reports_objects_without_iterator 0 js_value_5 js_empty_object
              js_heap after eq_refl) as (Hts & Hjs).
  split; [exact Hts|].
  apply Hjs. split; reflexivity.
Defined.

(** [check(null, expect.value(5), expect.property("a", 1), x)]: the
    second check throws the TypeError of its property read. *)
Lemma check_propagates_the_first_exception_witness :
  let record :=
    JS.CheckErr_object [(KStr "expected", VNum 5); (KStr "received", VNull)] in
  TS.check VNull [js_value_5; js_property_a; not_callable VNull] js_heap2
  = Some (Throw (VObj 37), js_heap2 ++ [record; type_error_object]) /\
  JS.check VNull [js_value_5; js_property_a; js_value_6] js_heap2
  = Some (Throw (VObj 37), js_heap2 ++ [record; type_error_object]).
Proof.
  intros record. split.
  - exact (proj1 (check_propagates_the_first_exception [js_value_5] js_property_a
                    [not_callable VNull] VNull (VObj 37) js_heap2 [VObj 36]
                    (js_heap2 ++ [record]) (js_heap2 ++ [record; type_error_object])
                    eq_refl eq_refl)).
  - apply (proj2 (check_propagates_the_first_exception [js_value_5] js_property_a
                    [js_value_6] VNull (VObj 37) js_heap2 [VObj 36]
                    (js_heap2 ++ [record]) (js_heap2 ++ [record; type_error_object])
                    eq_refl eq_refl)).
    repeat constructor.
Defined.

(** * [expect.property] and [expect.type] on what the value does not own *)

(** A key that the candidate object has nowhere on its prototype chain
    reads as [undefined]: the check of [property] cannot tell it from a
    key that holds [undefined].  It succeeds when [undefined] is
    expected and otherwise reports [undefined] as received. *)
Theorem property_reads_a_missing_key_as_undefined
  (key : pkey) (expected : value) (l : loc) (h h' : heap) :
  find_property h' l key = Some None ->
  (exists c,
     TS.property key expected h = Some (Ret c, h ++ [function_object 1]) /\
     f_call c (VObj l) h'
     = if is_undefined expected then Some (Ret VUndefined, h')
       else Some (Ret (VObj (length h')),
                  h' ++ [TS.CheckErr_object
                           [(KStr "property", key_value key);
                            (KStr "expected", expected);
                            (KStr "received", VUndefined)]])) /\
  (exists c,
     JS.property (key_value key) expected h
     = Some (Ret c, h ++ [function_object 1]) /\
     f_call c (VObj l) h'
     = if is_undefined expected then Some (Ret VUndefined, h')
       else Some (Ret (VObj (length h')),
                  h' ++ [JS.CheckErr_object
                           [(KStr "property", key_value key);
                            (KStr "expected", expected);
                            (KStr "received", VUndefined)]])).
Proof.
  intros Hmiss.
  assert (Hget : get (VObj l) key h' = Some (Ret VUndefined, h')).
  { unfold get, get_object. now rewrite Hmiss. }
  assert (Hsym : strict_eq VUndefined expected = is_undefined expected)
    by (now destruct expected).
  split.
  - eexists. split; [apply closure_eq|]. cbn [f_call].
    rewrite (bind_ret _ _ _ _ _ Hget), Hsym.
    destruct (is_undefined expected); [reflexivity|].
    now rewrite (bind_ret _ _ _ _ _ Hget).
  - destruct key as [s|y]; (eexists; split; [reflexivity|]); cbn [f_call key_value];
      unfold JS.to_key; unfold bind at 1; unfold ret at 1;
      rewrite (bind_ret _ _ _ _ _ Hget), Hsym;
      (destruct (is_undefined expected); [reflexivity|]);
      now rewrite (bind_ret _ _ _ _ _ Hget).
Qed.

Lemma index_key_not_constructor len : key_index len "constructor" = None.
Proof.
  unfold key_index. generalize (seq 0 len). intros l.
  induction l as [|i l IH]; [reflexivity|].
  cbn [find]. unfold index_key at 1.
  now destruct (Nat.to_uint i).
Qed.

(** In [check.ts] the check of [type] takes a primitive by the
    constructor of its wrapper: in every heap that extends the built-in
    objects, numbers (NaN among them) pass [type(Number)], strings
    [type(String)], booleans [type(Boolean)] and symbols
    [type(Symbol)]. *)
Theorem TS_type_accepts_primitives_by_wrapper (h0 h2 : heap) :
  let h := builtins ++ h2 in
  let accepts ctor v :=
    exists c,
      TS.type (VObj ctor) h0 = Some (Ret c, h0 ++ [function_object 1]) /\
      f_call c v h = Some (Ret VUndefined, h) in
  (forall z, accepts loc_Number (VNum z)) /\
  accepts loc_Number VNaN /\
  (forall s, accepts loc_String (VStr s)) /\
  (forall b, accepts loc_Boolean (VBool b)) /\
  (forall y, accepts loc_Symbol (VSymbol y)).
Proof.
  intros h accepts. unfold accepts.
  repeat split; intros; (eexists; split; [apply closure_eq|]); cbn [f_call];
    try reflexivity.
  unfold get_optional, get, string_own. cbn [is_nullish String.eqb Ascii.eqb Bool.eqb].
  rewrite index_key_not_constructor. reflexivity.
Qed.

(** [expect.property("a", 1)({})] reports [undefined] as received. *)
Lemma property_reads_a_missing_key_as_undefined_witness :
  let after := js_heap ++ [function_object 1] in
  (exists c,
     TS.property (KStr "a") (VNum 1) js_heap = Some (Ret c, after) /\
     f_call c js_empty_object after
     = Some (Ret (VObj 36),
             after ++ [TS.CheckErr_object
                         [(KStr "property", VStr "a"); (KStr "expected", VNum 1);
                          (KStr "received", VUndefined)]])) /\
  (exists c,
     JS.property (VStr "a") (VNum 1) js_heap = Some (Ret c, after) /\
     f_call c js_empty_object after
     = Some (Ret (VObj 36),
             after ++ [JS.CheckErr_object
                         [(KStr "property", VStr "a"); (KStr "expected", VNum 1);
                          (KStr "received", VUndefined)]])).
Proof.
  intros after.
  exact (property_reads_a_missing_key_as_undefined (KStr "a") (VNum 1) 33
           js_heap after eq_refl).
Defined.
